(** * DQN training core of spinning-coin: replay buffer, loss, target
    synchronisation, exploration schedule and the interaction loop.

    Shallow embedding of [spinup/algos/pytorch/dqn/dqn.py].

    Conventions.
    - Python [int]s that come from the configuration are [Z]; counters
      that the code keeps non-negative ([ptr], [size], [max_size], the
      loop index [t]) are [nat].
    - Python and NumPy floats are exact rationals [Q]: rounding is not
      part of the model, and the numbers that the concrete runs below
      compute with are dyadic rationals, on which binary floating point
      computes the same values. Arithmetic identities are stated with
      [==] (equality of rationals). The exploration schedule is given on
      binary64 floats as well, to run it on the defaults of [dqn], and
      the Bellman backup on float32 values, where infinities and NaN
      change what it computes.
    - A raised Python exception is [None].
    - One-dimensional arrays are lists; a two-dimensional array is a
      list of rows. *)

From Stdlib Require Import QArith Qminmax Lqa Lia ZArith PrimFloat SpecFloat.
From Stdlib Require Strings.String.
From stdpp Require Import base option list numbers.

Open Scope nat_scope.

(** ** NumPy array helpers *)

(** [a[i] = x] on an array of known length: NumPy raises [IndexError]
    when [i] is out of bounds (indices here are never negative). The
    value is taken to fit the row it is written to, as the observations
    that [dqn] stores do: NumPy's broadcasting, or its [ValueError], on
    a value of another shape is not modelled. *)
Definition setitem {A} (a : list A) (i : nat) (x : A) : option (list A) :=
  if decide (i < length a) then Some (<[i := x]> a) else None.

(** [a[idxs]] with an integer index array: one entry per index, in
    order, [IndexError] when an index is out of bounds. *)
Definition getitems {A} (a : list A) (idxs : list nat) : option (list A) :=
  mapM (λ i, a !! i) idxs.

(** [np.zeros(n)]: [ValueError] on a negative dimension. *)
Definition np_zeros {A} (zero : A) (n : Z) : option (list A) :=
  if decide (n < 0)%Z then None else Some (replicate (Z.to_nat n) zero).

(** ** Replay buffer *)

(** An observation is a vector of reals of dimension [obs_dim]. *)
Definition Obs := list Q.

(** One environment transition, as the trainer hands it to [store]. *)
Record Transition := {
  tr_obs : Obs;
  tr_act : Z;
  tr_rew : Q;
  tr_next_obs : Obs;
  tr_done : bool;
}.

(** [float(done)]: the terminal flag as it is written to [done_buf]. *)
Definition float_of_bool (b : bool) : Q := if b then 1%Q else 0%Q.

(** class [ReplayBuffer]: five parallel arrays, the write cursor [ptr],
    the count [size] of valid slots and the capacity [max_size]. The
    rows of [act_buf], of length one, are their single entry. *)
Record ReplayBuffer := {
  obs_buf : list Obs;
  obs2_buf : list Obs;
  act_buf : list Q;
  rew_buf : list Q;
  done_buf : list Q;
  ptr : nat;
  size : nat;
  max_size : nat;
}.

(** [ReplayBuffer.__init__(obs_dim, size)]. *)
Definition ReplayBuffer_init (obs_dim : nat) (size0 : Z) : option ReplayBuffer :=
  obs_buf0 ← np_zeros (replicate obs_dim 0%Q) size0;
  obs2_buf0 ← np_zeros (replicate obs_dim 0%Q) size0;
  act_buf0 ← np_zeros 0%Q size0;
  rew_buf0 ← np_zeros 0%Q size0;
  done_buf0 ← np_zeros 0%Q size0;
  Some {| obs_buf := obs_buf0; obs2_buf := obs2_buf0; act_buf := act_buf0;
          rew_buf := rew_buf0; done_buf := done_buf0;
          ptr := 0; size := 0; max_size := Z.to_nat size0 |}.

(** [ReplayBuffer.store(obs, act, rew, next_obs, done)]. With
    [max_size = 0] the first assignment already raises. *)
Definition store (self : ReplayBuffer) (obs : Obs) (act : Z) (rew : Q)
    (next_obs : Obs) (done : bool) : option ReplayBuffer :=
  obs_buf' ← setitem (obs_buf self) (ptr self) obs;
  obs2_buf' ← setitem (obs2_buf self) (ptr self) next_obs;
  act_buf' ← setitem (act_buf self) (ptr self) (inject_Z act);
  rew_buf' ← setitem (rew_buf self) (ptr self) rew;
  done_buf' ← setitem (done_buf self) (ptr self) (float_of_bool done);
  if decide (max_size self = 0) then None else
  Some {| obs_buf := obs_buf'; obs2_buf := obs2_buf'; act_buf := act_buf';
          rew_buf := rew_buf'; done_buf := done_buf';
          ptr := (ptr self + 1) `mod` max_size self;
          size := (size self + 1) `min` max_size self;
          max_size := max_size self |}.

Definition store_transition (self : ReplayBuffer) (x : Transition)
    : option ReplayBuffer :=
  store self (tr_obs x) (tr_act x) (tr_rew x) (tr_next_obs x) (tr_done x).

(** A sequence of [store] calls, oldest first. *)
Fixpoint store_all (self : ReplayBuffer) (xs : list Transition)
    : option ReplayBuffer :=
  match xs with
  | [] => Some self
  | x :: xs' => self' ← store_transition self x; store_all self' xs'
  end.

(** [ReplayBuffer.__len__()]. *)
Definition __len__ (self : ReplayBuffer) : nat := ptr self.

(** The batch dictionary returned by [sample_batch]. *)
Record Batch := {
  b_obs : list Obs;
  b_obs2 : list Obs;
  b_act : list Q;
  b_rew : list Q;
  b_done : list Q;
}.

(** The body of [sample_batch] once the index array is drawn. *)
Definition take_batch (self : ReplayBuffer) (idxs : list nat) : option Batch :=
  o ← getitems (obs_buf self) idxs;
  o2 ← getitems (obs2_buf self) idxs;
  a ← getitems (act_buf self) idxs;
  r ← getitems (rew_buf self) idxs;
  d ← getitems (done_buf self) idxs;
  Some {| b_obs := o; b_obs2 := o2; b_act := a; b_rew := r; b_done := d |}.

(** ** Exploration schedule *)

(** The closure [exploration_schedule] of [dqn]; [exploration_end] and
    [exploration_decay] are the enclosing function's arguments. *)
Definition exploration_schedule (exploration_end exploration_decay : Q)
    (exploration_rate : Q) : Q :=
  if Qlt_le_dec exploration_end exploration_rate
  then (exploration_rate * exploration_decay)%Q
  else exploration_end.

(** The rate after [n] environment steps: [exploration_rate = 1.0]
    before the loop, then one [exploration_schedule] per step. *)
Definition exploration_rate_after (exploration_end exploration_decay : Q)
    (n : nat) : Q :=
  Nat.iter n (exploration_schedule exploration_end exploration_decay) 1%Q.

(** The same closure and the same iteration on binary64 floats, the
    arithmetic Python runs them in. *)
Definition exploration_schedule_float (exploration_end exploration_decay : float)
    (exploration_rate : float) : float :=
  if PrimFloat.ltb exploration_end exploration_rate
  then PrimFloat.mul exploration_rate exploration_decay
  else exploration_end.

Definition exploration_rate_after_float (exploration_end exploration_decay : float)
    (n : N) : float :=
  N.iter n (exploration_schedule_float exploration_end exploration_decay) 1%float.

(** The defaults [exploration_end=0.05] and [exploration_decay=0.99995]
    as binary64 values. *)
Definition default_exploration_end_float : float := 0x1.999999999999ap-5%float.
Definition default_exploration_decay_float : float := 0x1.fff972474538fp-1%float.

(** [d] to the power [n], as [n] decays of the initial rate 1 give it. *)
Fixpoint decay_power (d : Q) (n : nat) : Q :=
  match n with
  | 0 => 1%Q
  | S n' => (decay_power d n' * d)%Q
  end.

(** ** Loss and target synchronisation *)

(** A parameter tensor, flattened, with its [requires_grad] flag. *)
Record Tensor := {
  data : list Q;
  requires_grad : bool;
}.

(** [module.parameters()], in order. *)
Definition Params := list Tensor.

(** [for p in module.parameters(): p.requires_grad = False]. *)
Definition freeze (m : Params) : Params :=
  (λ p, {| data := data p; requires_grad := false |}) <$> m.

(** [x.max()] along the action dimension of one row. *)
Definition tensor_max (row : list Q) : option Q :=
  match row with
  | [] => None
  | x :: xs => Some (foldl Qmax x xs)
  end.

(** [x.argmax()]: index of the first maximal entry. *)
Fixpoint argmax_from (best : Q) (best_i i : nat) (xs : list Q) : nat :=
  match xs with
  | [] => best_i
  | x :: xs' =>
      if Qlt_le_dec best x then argmax_from x i (S i) xs'
      else argmax_from best best_i (S i) xs'
  end.

Definition argmax (row : list Q) : option Z :=
  match row with
  | [] => None
  | x :: xs => Some (Z.of_nat (argmax_from x 0 1 xs))
  end.

(** [a.long()]: truncation towards zero. *)
Definition long (a : Q) : Z := (Qnum a ÷ Zpos (Qden a))%Z.

(** [torch.gather(cur_q, dim=1, index=a.long()).squeeze(-1)]. *)
Definition gather (rows : list (list Q)) (acts : list Q) : option (list Q) :=
  mapM (λ ra : list Q * Q,
          if decide (long ra.2 < 0)%Z then None
          else ra.1 !! Z.to_nat (long ra.2))
       (zip rows acts).

(** One entry of [backup = r + gamma * (1 - d) * next_q], in exact
    arithmetic; [backup_entry_float32] below is the same expression on
    float32 values. *)
Definition backup_entry (gamma r d next_q : Q) : Q :=
  (r + gamma * (1 - d) * next_q)%Q.

(** The whole vector, elementwise. *)
Definition bellman_backup (gamma : Q) (r d next_q : list Q) : list Q :=
  zip_with (λ ri dn, backup_entry gamma ri dn.1 dn.2) r (zip d next_q).

Definition Qsum (xs : list Q) : Q := foldr Qplus 0%Q xs.

(** [x.mean()]. (On an empty tensor torch gives NaN and this gives 0;
    no statement below is about the value of the loss of an empty
    batch.) *)
Definition mean (xs : list Q) : Q := (Qsum xs / inject_Z (Z.of_nat (length xs)))%Q.

(** [((cur_q - backup) ** 2).mean()]. *)
Definition mse (cur_q backup : list Q) : Q :=
  mean (zip_with (λ c b, ((c - b) * (c - b))%Q) cur_q backup).

(** One target tensor after [p_targ.data.mul_(polyak)] and
    [p_targ.data.add_((1 - polyak) * p.data)]. *)
Definition polyak_tensor (polyak : Q) (p p_targ : Tensor) : Tensor :=
  {| data := zip_with (λ x_targ x, (x_targ * polyak + (1 - polyak) * x)%Q)
                      (data p_targ) (data p);
     requires_grad := requires_grad p_targ |}.

(** The loop over [zip(q_net.parameters(), q_net_targ.parameters())]:
    target tensors without a partner are not visited. *)
Fixpoint polyak_average (polyak : Q) (q_net q_net_targ : Params) : Params :=
  match q_net, q_net_targ with
  | p :: ps, p_targ :: ps_targ =>
      polyak_tensor polyak p p_targ :: polyak_average polyak ps ps_targ
  | _, _ => q_net_targ
  end.

(** ** External collaborators *)

(** The Gym environment: [reset] and [step] on an explicit state. *)
Class Env := {
  EnvState : Type;
  env_fn : EnvState;
  env_reset : EnvState → Obs * EnvState;
  env_step : EnvState → Z → Obs * Q * bool * EnvState;
  obs_dim : nat;
  action_space_n : Z;
}.

(** The Q-network: construction under a seed and the forward pass
    [q_net.q(o)] on one observation. *)
Class QNetwork := {
  q_net_new : Z → Params;
  q_forward : Params → Obs → list Q;
}.

(** The Adam optimiser over a parameter list. [Adam_step moments loss
    max_grad_norm params] is [zero_grad(); loss.backward();
    clip_grad_norm_(params, max_grad_norm); step()], with the loss seen
    as a function of the optimiser's parameters. *)
Class Optimizer := {
  OptState : Type;
  Adam : Params → Q → option OptState;
  Adam_step : OptState → (Params → option Q) → Q → Params → Params * OptState;
}.

(** NumPy's global random generator, state made explicit. *)
Class NumpyRandom := {
  Rng : Type;
  random_seed : Z → option Rng;
  random_rand : Rng → Q * Rng;
  random_choice : Z → Rng → option (Z * Rng);
  random_ints : nat → nat → nat → Rng → list nat * Rng;
}.

(** The sample space of [np.random.randint(low, high, size=n)] for
    [low < high]: every vector of [n] integers of [[low, high)], each
    of them once, so that each is as likely as any other. *)
Fixpoint randint_outcomes (low high n : nat) : list (list nat) :=
  match n with
  | 0 => [[]]
  | S n' =>
      i ← seq low (high - low);
      (λ idxs, i :: idxs) <$> randint_outcomes low high n'
  end.

(** What is assumed of the generator: a draw is a point of the sample
    space. *)
Class NumpyRandomSpec `{NumpyRandom} : Prop :=
  random_ints_outcome :
    ∀ low high n g, low < high →
      (random_ints low high n g).1 ∈ randint_outcomes low high n.

(** [np.random.randint(0, high, size=n)]: [ValueError] on a negative
    [n]; the empty array, with nothing drawn, when [n = 0]; [ValueError]
    when the range [[0, high)] is empty. *)
Definition np_random_randint `{NumpyRandom} (high : nat) (n : Z) (g : Rng)
    : option (list nat * Rng) :=
  if decide (n < 0)%Z then None
  else if decide (n = 0)%Z then Some ([], g)
  else if decide (high = 0) then None
  else Some (random_ints 0 high (Z.to_nat n) g).

(** [ReplayBuffer.sample_batch(batch_size)]: the batch, the array of
    indices that was drawn, the buffer as the call leaves it and the
    generator. *)
Definition sample_batch `{NumpyRandom} (self : ReplayBuffer) (batch_size : Z)
    (g : Rng) : option (Batch * list nat * ReplayBuffer * Rng) :=
  '(idxs, g') ← np_random_randint (size self) batch_size g;
  batch ← take_batch self idxs;
  Some (batch, idxs, self, g').

(** ** The trainer *)

(** The keyword arguments of [dqn] that the training core reads. *)
Record Config := {
  seed : Z;
  steps_per_epoch : Z;
  epochs : Z;
  replay_size : Z;
  gamma : Q;
  polyak : Q;
  q_lr : Q;
  batch_size : Z;
  update_interval : Z;
  max_ep_len : Z;
  grad_steps : Z;
  max_grad_norm : Q;
  exploration_start : Q;
  exploration_end : Q;
  exploration_decay : Q;
}.

(** The defaults of the signature of [dqn]. *)
Definition default_config : Config := {|
  seed := 0;
  steps_per_epoch := 5000;
  epochs := 100;
  replay_size := 100000;
  gamma := 99 # 100;
  polyak := 995 # 1000;
  q_lr := 1 # 1000;
  batch_size := 128;
  update_interval := 50;
  max_ep_len := 1000;
  grad_steps := 1;
  max_grad_norm := 10;
  exploration_start := 1;
  exploration_end := 5 # 100;
  exploration_decay := 99995 # 100000;
|}.

(** What the trainer did, in order: a record kept beside the program
    state so that the number and the order of the operations can be
    stated. It is written to and never read. *)
Inductive Event :=
  | Ev_store (x : Transition)
  | Ev_sample_batch (idxs : list nat) (batch : Batch)
  | Ev_gradient_step (data : Batch)
  | Ev_polyak.

(** What one call of [update] on [data] with [g] gradient steps
    records, and what one sample-and-update cycle records. *)
Definition update_trace (g : Z) (data : Batch) : list Event :=
  replicate (Z.to_nat g) (Ev_gradient_step data) ++ [Ev_polyak].

Definition cycle_trace (g : Z) (draw : list nat * Batch) : list Event :=
  Ev_sample_batch draw.1 draw.2 :: update_trace g draw.2.

(** [requires_grad] is off on every tensor. *)
Definition frozen (m : Params) : Prop :=
  Forall (λ p, requires_grad p = false) m.

Section Trainer.
Context {gym : Env} {net : QNetwork} {optim : Optimizer} {np_random : NumpyRandom}.

(** The local variables of [dqn] that live across loop iterations. *)
Record State := {
  env : EnvState;
  o : Obs;
  ep_ret : Q;
  ep_len : Z;
  exploration_rate : Q;
  replay_buffer : ReplayBuffer;
  q_net : Params;
  q_net_targ : Params;
  q_optimizer : OptState;
  rng : Rng;
  trace : list Event;
}.

Definition log (e : Event) (st : State) : State :=
  {| env := env st; o := o st; ep_ret := ep_ret st; ep_len := ep_len st;
     exploration_rate := exploration_rate st;
     replay_buffer := replay_buffer st;
     q_net := q_net st; q_net_targ := q_net_targ st;
     q_optimizer := q_optimizer st; rng := rng st;
     trace := trace st ++ [e] |}.

(** What [st'] shares with [st]: everything but the networks, the
    moments of the optimiser and the record of operations. *)
Definition same_world (st st' : State) : Prop :=
  env st' = env st ∧ o st' = o st ∧ ep_ret st' = ep_ret st ∧
  ep_len st' = ep_len st ∧ exploration_rate st' = exploration_rate st ∧
  replay_buffer st' = replay_buffer st ∧ rng st' = rng st.

(** [compute_loss_q(data)]: the loss and the [QVals] it logs; the
    Bellman backup is a function of the target network alone. *)
Definition next_q_of (targ : Params) (data : Batch) : option (list Q) :=
  mapM tensor_max (q_forward targ <$> b_obs2 data).

Definition compute_backup (cfg : Config) (targ : Params) (data : Batch)
    : option (list Q) :=
  next_q ← next_q_of targ data;
  Some (bellman_backup (gamma cfg) (b_rew data) (b_done data) next_q).

Definition compute_loss_q (cfg : Config) (online targ : Params) (data : Batch)
    : option (Q * list Q) :=
  cur_q ← gather (q_forward online <$> b_obs data) (b_act data);
  backup ← compute_backup cfg targ data;
  Some (mse cur_q backup, cur_q).

(** One pass of the body of [for _ in range(grad_steps)] in [update]:
    the optimiser was built over [q_net.q.parameters()] and writes
    these alone. *)
Definition gradient_step (cfg : Config) (data : Batch) (st : State)
    : option (State * (Q * list Q)) :=
  l ← compute_loss_q cfg (q_net st) (q_net_targ st) data;
  let loss_of := λ online, fst <$> compute_loss_q cfg online (q_net_targ st) data in
  let '(online', moments') :=
    Adam_step (q_optimizer st) loss_of (max_grad_norm cfg) (q_net st) in
  Some (log (Ev_gradient_step data)
          {| env := env st; o := o st; ep_ret := ep_ret st; ep_len := ep_len st;
             exploration_rate := exploration_rate st;
             replay_buffer := replay_buffer st;
             q_net := online'; q_net_targ := q_net_targ st;
             q_optimizer := moments'; rng := rng st;
             trace := trace st |}, l).

(** [for _ in range(grad_steps)], carrying the last value bound to
    [loss_q, loss_info]. *)
Fixpoint gradient_loop (cfg : Config) (data : Batch) (n : nat) (st : State)
    (last : option (Q * list Q)) : option (State * option (Q * list Q)) :=
  match n with
  | 0 => Some (st, last)
  | S n' =>
      '(st', l) ← gradient_step cfg data st;
      gradient_loop cfg data n' st' (Some l)
  end.

(** The Polyak block at the end of [update]. *)
Definition polyak_step (cfg : Config) (st : State) : State :=
  log Ev_polyak
    {| env := env st; o := o st; ep_ret := ep_ret st; ep_len := ep_len st;
       exploration_rate := exploration_rate st;
       replay_buffer := replay_buffer st;
       q_net := q_net st;
       q_net_targ := polyak_average (polyak cfg) (q_net st) (q_net_targ st);
       q_optimizer := q_optimizer st; rng := rng st;
       trace := trace st |}.

(** [update(data, grad_steps)]. When the loop body never ran,
    [loss_q] is unbound at [logger.store] and Python raises. *)
Definition update (cfg : Config) (data : Batch) (grad_steps0 : Z) (st : State)
    : option State :=
  '(st1, last) ← gradient_loop cfg data (Z.to_nat grad_steps0) st None;
  _ ← last;
  Some (polyak_step cfg st1).

(** One pass of [for _ in range(update_interval)]: draw a batch, then
    one [update] on it. *)
Definition sample_and_update (cfg : Config) (st : State) : option State :=
  '(batch, idxs, buf, g') ← sample_batch (replay_buffer st) (batch_size cfg) (rng st);
  update cfg batch (grad_steps cfg)
    (log (Ev_sample_batch idxs batch)
       {| env := env st; o := o st; ep_ret := ep_ret st; ep_len := ep_len st;
          exploration_rate := exploration_rate st;
          replay_buffer := buf;
          q_net := q_net st; q_net_targ := q_net_targ st;
          q_optimizer := q_optimizer st; rng := g';
          trace := trace st |}).

Fixpoint update_cycles (cfg : Config) (n : nat) (st : State) : option State :=
  match n with
  | 0 => Some st
  | S n' => st' ← sample_and_update cfg st; update_cycles cfg n' st'
  end.

(** The condition of the [if] of "Update handling" at step [t]:
    [len(replay_buffer) >= batch_size and (t + 1) % update_interval == 0],
    the second operand evaluated only when the first holds. *)
Definition update_due (cfg : Config) (t : nat) (buf : ReplayBuffer)
    : option bool :=
  if decide (batch_size cfg ≤ Z.of_nat (__len__ buf))%Z then
    if decide (update_interval cfg = 0)%Z then None
    else Some (bool_decide (((Z.of_nat t + 1) `mod` update_interval cfg)%Z = 0%Z))
  else Some false.

(** "Update handling". *)
Definition update_handling (cfg : Config) (t : nat) (st : State) : option State :=
  due ← update_due cfg t (replay_buffer st);
  if due : bool then update_cycles cfg (Z.to_nat (update_interval cfg)) st
  else Some st.

(** [q_net.act(o)]: the greedy action. *)
Definition act (online : Params) (ob : Obs) : option Z :=
  argmax (q_forward online ob).

(** [get_action(o)] with [deterministic=False]. *)
Definition get_action (st : State) : option (Z * Rng) :=
  let '(u, g1) := random_rand (rng st) in
  if Qlt_le_dec u (exploration_rate st) then random_choice action_space_n g1
  else a ← act (q_net st) (o st); Some (a, g1).

(** [d = False if ep_len == max_ep_len else d]: the flag that is
    stored, from the episode length after this step and the flag the
    environment returned. *)
Definition stored_done (cfg : Config) (ep_len1 : Z) (d : bool) : bool :=
  if decide (ep_len1 = max_ep_len cfg) then false else d.

(** The body of [for t in range(total_steps)] up to and including
    "Update handling". The end-of-epoch block that follows evaluates
    on the test environment, saves and logs; it writes none of the
    variables of [State]. *)
Definition loop_body (cfg : Config) (t : nat) (st : State) : option State :=
  '(a, g1) ← get_action st;
  let '(o2, r, d0, env1) := env_step (env st) a in
  let ep_ret1 := (ep_ret st + r)%Q in
  let ep_len1 := (ep_len st + 1)%Z in
  let d := stored_done cfg ep_len1 d0 in
  let x := {| tr_obs := o st; tr_act := a; tr_rew := r;
              tr_next_obs := o2; tr_done := d |} in
  buf1 ← store_transition (replay_buffer st) x;
  let rate1 :=
    exploration_schedule (exploration_end cfg) (exploration_decay cfg)
      (exploration_rate st) in
  let '(o', ep_ret', ep_len', env') :=
    if d || bool_decide (ep_len1 = max_ep_len cfg)
    then let '(o0, env2) := env_reset env1 in (o0, 0%Q, 0%Z, env2)
    else (o2, ep_ret1, ep_len1, env1) in
  update_handling cfg t
    {| env := env'; o := o'; ep_ret := ep_ret'; ep_len := ep_len';
       exploration_rate := rate1;
       replay_buffer := buf1;
       q_net := q_net st; q_net_targ := q_net_targ st;
       q_optimizer := q_optimizer st; rng := g1;
       trace := trace st ++ [Ev_store x] |}.

(** Iterations [t0], [t0 + 1], ..., [t0 + n - 1] of the loop. *)
Fixpoint loop_from (cfg : Config) (t0 n : nat) (st : State) : option State :=
  match n with
  | 0 => Some st
  | S n' => st' ← loop_body cfg t0 st; loop_from cfg (S t0) n' st'
  end.

(** [dqn] from its first line to "Prepare for interaction with
    environment": seeding, the two networks, the buffer, the
    optimiser, the first [env.reset()]. *)
Definition dqn_start (cfg : Config) : option State :=
  g ← random_seed (seed cfg);
  let online := q_net_new (seed cfg) in
  let targ := freeze online in
  buf ← ReplayBuffer_init obs_dim (replay_size cfg);
  moments ← Adam online (q_lr cfg);
  let '(o0, env1) := env_reset env_fn in
  Some {| env := env1; o := o0; ep_ret := 0; ep_len := 0;
          exploration_rate := 1;
          replay_buffer := buf;
          q_net := online; q_net_targ := targ;
          q_optimizer := moments; rng := g;
          trace := [] |}.

(** The first [n] iterations of the training loop of [dqn cfg]. *)
Definition dqn_steps (cfg : Config) (n : nat) : option State :=
  st ← dqn_start cfg; loop_from cfg 0 n st.

(** [dqn] as far as its loop goes: all [steps_per_epoch * epochs]
    iterations. *)
Definition dqn (cfg : Config) : option State :=
  dqn_steps cfg (Z.to_nat (steps_per_epoch cfg * epochs cfg)).
End Trainer.

(** ** Reading the buffer *)

(** The five values that [store] writes for a transition: the action
    and the flag as floats. *)
Definition Row : Type := Obs * Obs * Q * Q * Q.

Definition row_of (x : Transition) : Row :=
  (tr_obs x, tr_next_obs x, inject_Z (tr_act x), tr_rew x,
   float_of_bool (tr_done x)).

(** Slot [i] of the five arrays. *)
Definition slot (self : ReplayBuffer) (i : nat) : option Row :=
  ob ← obs_buf self !! i;
  ob2 ← obs2_buf self !! i;
  a ← act_buf self !! i;
  r ← rew_buf self !! i;
  d ← done_buf self !! i;
  Some (ob, ob2, a, r, d).

(** All the slots, in index order. *)
Definition rows (self : ReplayBuffer) : list (option Row) :=
  slot self <$> seq 0 (max_size self).

(** A slot of a freshly allocated buffer. *)
Definition zero_row (obs_dim : nat) : Row :=
  (replicate obs_dim 0%Q, replicate obs_dim 0%Q, 0%Q, 0%Q, 0%Q).

(** Entry [i] of a batch. *)
Definition batch_row (batch : Batch) (i : nat) : option Row :=
  ob ← b_obs batch !! i;
  ob2 ← b_obs2 batch !! i;
  a ← b_act batch !! i;
  r ← b_rew batch !! i;
  d ← b_done batch !! i;
  Some (ob, ob2, a, r, d).

(** The arrays all have the length of the capacity, and the cursor and
    the count are within it. *)
Record buffer_ok (self : ReplayBuffer) : Prop := {
  ok_obs : length (obs_buf self) = max_size self;
  ok_obs2 : length (obs2_buf self) = max_size self;
  ok_act : length (act_buf self) = max_size self;
  ok_rew : length (rew_buf self) = max_size self;
  ok_done : length (done_buf self) = max_size self;
  ok_ptr : ptr self < max_size self;
  ok_size : size self ≤ max_size self;
  ok_ptr_size : ptr self ≤ size self;
}.

(** ** A small world to run the trainer in *)

Module Toy.
(** A corridor of two steps: the episode terminates, of itself, on
    its second step. The state counts the steps of the episode. *)
#[export] Instance corridor : Env := {|
  EnvState := nat;
  env_fn := 0;
  env_reset := λ _, ([0%Q], 0);
  env_step := λ s _, ([inject_Z (Z.of_nat (S s))], 1%Q, bool_decide (S s = 2), S s);
  obs_dim := 1;
  action_space_n := 2;
|}.

(** A network that is its bias: one tensor, the two action values. *)
#[export] Instance bias_net : QNetwork := {|
  q_net_new := λ _, [ {| data := [0%Q; 1%Q]; requires_grad := true |} ];
  q_forward := λ params _,
    match params with
    | p :: _ => data p
    | [] => []
    end;
|}.

(** An optimiser that halves every parameter and counts its steps. *)
#[export] Instance halving : Optimizer := {|
  OptState := nat;
  Adam := λ _ _, Some 0;
  Adam_step := λ k _ _ params,
    ((λ p, {| data := Qmult (1 # 2) <$> data p;
              requires_grad := requires_grad p |}) <$> params, S k);
|}.

(** A generator that counts: the [j]-th integer drawn after [g]
    earlier draws is [low + (g + j) mod (high - low)]. *)
#[export] Instance counting : NumpyRandom := {|
  Rng := nat;
  random_seed := λ _, Some 0;
  random_rand := λ g, (1 # 2, S g);
  random_choice := λ n g,
    if decide (n ≤ 0)%Z then None
    else Some ((Z.of_nat g `mod` n)%Z, S g);
  random_ints := λ low high n g,
    ((λ j, low + (g + j) `mod` (high - low)) <$> seq 0 n, g + n);
|}.

(** Capacity 4, batches of 2, an update every 2 steps. *)
Definition small_config : Config := {|
  seed := 0;
  steps_per_epoch := 4;
  epochs := 2;
  replay_size := 4;
  gamma := 1 # 2;
  polyak := 1 # 2;
  q_lr := 1 # 1000;
  batch_size := 2;
  update_interval := 2;
  max_ep_len := 2;
  grad_steps := 2;
  max_grad_norm := 10;
  exploration_start := 1;
  exploration_end := 3 # 8;
  exploration_decay := 1 # 2;
|}.

(** The same with a discount factor of 2 and batches larger than the
    buffer. *)
Definition invalid_config : Config := {|
  seed := 0;
  steps_per_epoch := 4;
  epochs := 2;
  replay_size := 4;
  gamma := 2;
  polyak := 1 # 2;
  q_lr := 1 # 1000;
  batch_size := 8;
  update_interval := 2;
  max_ep_len := 2;
  grad_steps := 2;
  max_grad_norm := 10;
  exploration_start := 1;
  exploration_end := 3 # 8;
  exploration_decay := 1 # 2;
|}.

Definition x1 : Transition :=
  {| tr_obs := [1%Q]; tr_act := 0; tr_rew := 1; tr_next_obs := [2%Q]; tr_done := false |}.
Definition x2 : Transition :=
  {| tr_obs := [2%Q]; tr_act := 1; tr_rew := 2; tr_next_obs := [3%Q]; tr_done := false |}.
Definition x3 : Transition :=
  {| tr_obs := [3%Q]; tr_act := 0; tr_rew := 3; tr_next_obs := [4%Q]; tr_done := true |}.
End Toy.

(** ** The backup in float32 arithmetic *)

(** torch computes the backup on float32 tensors. A float32 is an
    IEEE 754 binary32 value, with the arithmetic [SpecFloat] gives for
    precision 24 and maximal exponent 128: zeros, infinities and NaN
    included, rounding to nearest even. *)
Definition float32 := spec_float.

Definition f32_add : float32 → float32 → float32 := SFadd 24 128.
Definition f32_sub : float32 → float32 → float32 := SFsub 24 128.
Definition f32_mul : float32 → float32 → float32 := SFmul 24 128.

(** [1.0]. *)
Definition f32_one : float32 := S754_finite false 8388608 (-23).

(** [torch.isfinite]. *)
Definition f32_finite (x : float32) : bool :=
  match x with
  | S754_zero _ | S754_finite _ _ _ => true
  | S754_infinity _ | S754_nan => false
  end.

Definition f32_isnan (x : float32) : bool :=
  match x with
  | S754_nan => true
  | _ => false
  end.

(** The larger of two values as [max] reduces a row: NaN propagates. *)
Definition f32_max (a b : float32) : float32 :=
  if f32_isnan a then a
  else if f32_isnan b then b
  else if SFltb a b then b else a.

(** [x.max()] along the action dimension of one float32 row. *)
Definition tensor_max_float32 (row : list float32) : option float32 :=
  match row with
  | [] => None
  | x :: xs => Some (foldl f32_max x xs)
  end.

(** One entry of [backup = r + gamma * (1 - d) * next_q], in the order
    Python evaluates it. *)
Definition backup_entry_float32 (gamma r d next_q : float32) : float32 :=
  f32_add r (f32_mul (f32_mul gamma (f32_sub f32_one d)) next_q).

Definition bellman_backup_float32 (gamma : float32) (r d next_q : list float32)
    : list float32 :=
  zip_with (λ ri dn, backup_entry_float32 gamma ri dn.1 dn.2) r (zip d next_q).

(** The [torch.no_grad()] block of [compute_loss_q] on float32 data:
    [next_q_rows] is [q_net_targ.q(o2)], one row of action values per
    transition. *)
Definition compute_backup_float32 (gamma : float32)
    (next_q_rows : list (list float32)) (r d : list float32)
    : option (list float32) :=
  next_q ← mapM tensor_max_float32 next_q_rows;
  Some (bellman_backup_float32 gamma r d next_q).

(** Two float32 values that are the same number: the same value, or
    two zeros (which may differ in sign). *)
Definition f32_same (x y : float32) : Prop :=
  x = y ∨ ∃ s s', x = S754_zero s ∧ y = S754_zero s'.

(** ** Sampling as a distribution *)

(** A finite distribution, given as the list of its equally likely
    outcomes: the probability of an event is the number of outcomes in
    it over the number of outcomes. *)
Definition Dist (A : Type) := list A.

Fixpoint count_outcomes {A} (p : A → bool) (d : list A) : nat :=
  match d with
  | [] => 0
  | x :: d' => (if p x then 1 else 0) + count_outcomes p d'
  end.

(** [np.random.randint(0, high, size=n)] as the distribution NumPy
    documents: discrete uniform over [[0, high)^n]. It raises as
    [np_random_randint] does. *)
Definition np_random_randint_dist (high : nat) (n : Z) : option (Dist (list nat)) :=
  if decide (n < 0)%Z then None
  else if decide (n = 0)%Z then Some [[]]
  else if decide (high = 0) then None
  else Some (randint_outcomes 0 high (Z.to_nat n)).

(** [ReplayBuffer.sample_batch(batch_size)] as a distribution over the
    batch, the index array and the buffer as the call leaves it; it
    raises when some draw makes it raise. *)
Definition sample_batch_dist (self : ReplayBuffer) (batch_size : Z)
    : option (Dist (Batch * list nat * ReplayBuffer)) :=
  draws ← np_random_randint_dist (size self) batch_size;
  mapM (λ idxs, batch ← take_batch self idxs; Some (batch, idxs, self)) draws.

(** ** What the start of training raises *)

(** The exception that [np.zeros(n)] raises on a negative dimension:
    NumPy's [ValueError], with its message. *)
Inductive Exception :=
  | ValueError (msg : String.string).

Module NumpyMessages.
Import String.
Definition negative_dimensions : string := "negative dimensions are not allowed".
End NumpyMessages.

Definition np_zeros_error (n : Z) : option Exception :=
  if decide (n < 0)%Z then Some (ValueError NumpyMessages.negative_dimensions)
  else None.

Module NegativeSize.
(** [Toy.small_config] with [replay_size = -1]. *)
Definition negative_size_config : Config := {|
  seed := 0;
  steps_per_epoch := 4;
  epochs := 2;
  replay_size := -1;
  gamma := 1 # 2;
  polyak := 1 # 2;
  q_lr := 1 # 1000;
  batch_size := 2;
  update_interval := 2;
  max_ep_len := 2;
  grad_steps := 2;
  max_grad_norm := 10;
  exploration_start := 1;
  exploration_end := 3 # 8;
  exploration_decay := 1 # 2;
|}.
End NegativeSize.

(** ** Reading the record of operations *)

(** The transitions stored, in order. *)
Definition stored (tr : list Event) : list Transition :=
  omap (λ e, match e with Ev_store x => Some x | _ => None end) tr.

Definition is_sample (e : Event) : bool :=
  match e with Ev_sample_batch _ _ => true | _ => false end.

Definition is_gradient_step (e : Event) : bool :=
  match e with Ev_gradient_step _ => true | _ => false end.

Definition is_polyak (e : Event) : bool :=
  match e with Ev_polyak => true | _ => false end.

Fixpoint count_events (p : Event → bool) (tr : list Event) : nat :=
  match tr with
  | [] => 0
  | e :: tr' => (if p e then 1 else 0) + count_events p tr'
  end.

Section Episode.
Context {gym : Env} {net : QNetwork} {optim : Optimizer} {np_random : NumpyRandom}.

(** What an update block leaves alone: the environment, the episode
    accumulators, the exploration rate and the buffer. *)
Definition same_episode (st st' : State) : Prop :=
  env st' = env st ∧ o st' = o st ∧ ep_ret st' = ep_ret st ∧
  ep_len st' = ep_len st ∧ exploration_rate st' = exploration_rate st ∧
  replay_buffer st' = replay_buffer st.

End Episode.

(** ** Variations of a configuration *)

(** [cfg] with another value for the keyword argument
    [exploration_start]. *)
Definition set_exploration_start (cfg : Config) (v : Q) : Config := {|
  seed := seed cfg;
  steps_per_epoch := steps_per_epoch cfg;
  epochs := epochs cfg;
  replay_size := replay_size cfg;
  gamma := gamma cfg;
  polyak := polyak cfg;
  q_lr := q_lr cfg;
  batch_size := batch_size cfg;
  update_interval := update_interval cfg;
  max_ep_len := max_ep_len cfg;
  grad_steps := grad_steps cfg;
  max_grad_norm := max_grad_norm cfg;
  exploration_start := v;
  exploration_end := exploration_end cfg;
  exploration_decay := exploration_decay cfg;
|}.

(** ** Repeated target synchronisation *)

(** [n] Polyak blocks in a row against the same online parameters. *)
Definition polyak_repeat (polyak : Q) (online targ : Params) (n : nat) : Params :=
  Nat.iter n (polyak_average polyak online) targ.

(** ** Evaluation and the end of an epoch *)

(** How a loop that need not terminate ends within a number of
    iterations: it returns, it raises, or it is still running. *)
Inductive Outcome (A : Type) :=
  | Returned (x : A)
  | Raised
  | Running.
Arguments Returned {A} x.
Arguments Raised {A}.
Arguments Running {A}.

Section Evaluation.
Context {gym : Env} {net : QNetwork}.

(** The [while not (d or (ep_len == max_ep_len))] loop of [test_agent],
    with the greedy action of [get_action(o, deterministic=True)]; at
    most [fuel] passes. *)
Fixpoint test_episode (cfg : Config) (online : Params) (fuel : nat)
    (test_env : EnvState) (ob : Obs) (d : bool) (ep_ret0 : Q) (ep_len0 : Z)
    : Outcome (EnvState * Q * Z) :=
  if d || bool_decide (ep_len0 = max_ep_len cfg)
  then Returned (test_env, ep_ret0, ep_len0)
  else match fuel with
       | 0 => Running
       | S fuel' =>
           match act online ob with
           | None => Raised
           | Some a =>
               let '(o2, r, d2, test_env') := env_step test_env a in
               test_episode cfg online fuel' test_env' o2 d2
                 (ep_ret0 + r)%Q (ep_len0 + 1)%Z
           end
       end.

(** [for j in range(num_test_episodes)]: reset, one episode, and the
    pair logged as [TestEpRet], [TestEpLen]. Each episode has [fuel]
    passes at most. *)
Fixpoint test_episodes (cfg : Config) (online : Params) (fuel : nat) (n : nat)
    (test_env : EnvState) (logged : list (Q * Z))
    : Outcome (EnvState * list (Q * Z)) :=
  match n with
  | 0 => Returned (test_env, logged)
  | S n' =>
      let '(ob, test_env1) := env_reset test_env in
      match test_episode cfg online fuel test_env1 ob false 0%Q 0%Z with
      | Returned (test_env2, ret, len) =>
          test_episodes cfg online fuel n' test_env2 (logged ++ [(ret, len)])
      | Raised => Raised
      | Running => Running
      end
  end.

(** [test_agent()], for the keyword argument [num_test_episodes]. *)
Definition test_agent (cfg : Config) (num_test_episodes : Z) (online : Params)
    (fuel : nat) (test_env : EnvState) : Outcome (EnvState * list (Q * Z)) :=
  test_episodes cfg online fuel (Z.to_nat num_test_episodes) test_env [].
End Evaluation.

(** What "End of epoch handling" does at step [t]. *)
Record EpochEnd := {
  epoch : Z;
  model_saved : bool;
  total_env_interacts : Z;
}.

(** The two conditions of "End of epoch handling" at step [t], for the
    keyword argument [save_freq]: [None] when a modulus raises,
    [Some None] when the step does not end an epoch. *)
Definition end_of_epoch (cfg : Config) (save_freq : Z) (t : nat)
    : option (option EpochEnd) :=
  if decide (steps_per_epoch cfg = 0)%Z then None
  else if decide (((Z.of_nat t + 1) `mod` steps_per_epoch cfg)%Z = 0%Z) then
    let e := ((Z.of_nat t + 1) `div` steps_per_epoch cfg)%Z in
    if decide (save_freq = 0)%Z then None
    else Some (Some {| epoch := e;
                       model_saved := bool_decide ((e `mod` save_freq)%Z = 0%Z)
                                      || bool_decide (e = epochs cfg);
                       total_env_interacts := Z.of_nat t |})
  else Some None.

(** ** The network of [core.py] *)

(** A layer of an [nn.Sequential]: [nn.Linear(in_features,
    out_features)], or an activation applied entry by entry. *)
Inductive Layer :=
  | Linear (in_features out_features : nat)
  | Activation (f : Q → Q).

(** [mlp(sizes, activation, output_activation)]: for each [j] in
    [range(len(sizes) - 1)] a linear layer from [sizes[j]] to
    [sizes[j + 1]] and an activation, [output_activation] after the
    last linear layer. *)
Definition mlp (sizes : list nat) (activation output_activation : Q → Q)
    : list Layer :=
  j ← seq 0 (length sizes - 1);
  [Linear (default 0 (sizes !! j)) (default 0 (sizes !! (j + 1)));
   Activation (if decide (j < length sizes - 2) then activation
               else output_activation)].

(** The shapes of [module.parameters()]: the weight [(out, in)] and the
    bias [(out,)] of every linear layer, in order. *)
Definition parameter_shapes (layers : list Layer) : list (list nat) :=
  l ← layers;
  match l with
  | Linear i o => [[o; i]; [o]]
  | Activation _ => []
  end.

(** [count_vars(module)]: the sum of [np.prod(p.shape)]. *)
Definition count_vars (layers : list Layer) : nat :=
  foldr Nat.add 0 (foldr Nat.mul 1 <$> parameter_shapes layers).

Definition dot (w x : list Q) : Q := Qsum (zip_with Qmult w x).

(** [nn.Linear.forward] on one vector: [x W^T + b], the weight in
    row-major order; a vector that does not have [in_features] entries
    raises. *)
Definition linear_forward (i o : nat) (weight bias x : list Q) : option (list Q) :=
  if decide (length x = i)
  then Some ((λ k, (dot (take i (drop (k * i) weight)) x
                    + default 0%Q (bias !! k))%Q) <$> seq 0 o)
  else None.

(** [nn.Sequential.forward]: the layers in order, each linear layer
    taking its weight and its bias from the parameter list. *)
Fixpoint sequential_forward (layers : list Layer) (params : Params) (x : list Q)
    : option (list Q) :=
  match layers with
  | [] => Some x
  | Linear i o :: layers' =>
      match params with
      | w :: b :: params' =>
          y ← linear_forward i o (data w) (data b) x;
          sequential_forward layers' params' y
      | _ => None
      end
  | Activation f :: layers' => sequential_forward layers' params (f <$> x)
  end.

Definition relu (x : Q) : Q := Qmax 0 x.

(** [torch.squeeze(q, -1)] on a vector: a vector of one entry becomes a
    scalar. *)
Definition squeeze_last (q : list Q) : Q + list Q :=
  match q with
  | [v] => inl v
  | _ => inr q
  end.

(** The layer sizes of [MLPQFunction(obs_dim, act_dim, hidden_sizes,
    activation)]. *)
Definition q_sizes (obs_dim act_dim : nat) (hidden_sizes : list nat) : list nat :=
  [obs_dim] ++ hidden_sizes ++ [act_dim].

(** [MLPQFunction.forward(obs)] on one observation; the output
    activation of [mlp] is the identity. *)
Definition MLPQFunction_forward (obs_dim act_dim : nat) (hidden_sizes : list nat)
    (activation : Q → Q) (params : Params) (obs : Obs) : option (Q + list Q) :=
  q ← sequential_forward (mlp (q_sizes obs_dim act_dim hidden_sizes) activation id)
         params obs;
  Some (squeeze_last q).

(** [DQNQFunction.act(obs)] on one observation. (The [argmax] of a
    scalar is 0.) *)
Definition DQNQFunction_act (obs_dim act_dim : nat) (hidden_sizes : list nat)
    (activation : Q → Q) (params : Params) (obs : Obs) : option Z :=
  q ← MLPQFunction_forward obs_dim act_dim hidden_sizes activation params obs;
  match q with
  | inr row => argmax row
  | inl _ => Some 0%Z
  end.

(** ** The non-stationary four-rooms environment *)

(** The attributes of [NonStationaryFlatFourRoomsEnv] that [reset]
    reads and writes where it places the agent and the goal;
    [goal_cell] is the cell of the grid that holds the [Goal]. The
    walls and the doors of the grid are not part of this record. *)
Record FourRooms := {
  agent_default_pos : option (Z * Z);
  goal_default_pos : option (Z * Z);
  episode_num : Z;
  agent_pos : option (Z * Z);
  goal_cell : option (Z * Z);
}.

(** [__init__(agent_pos=..., goal_pos=...)] up to the call of the
    parent's constructor. *)
Definition FourRooms_init (agent_pos0 goal_pos : option (Z * Z)) : FourRooms :=
  {| agent_default_pos := agent_pos0; goal_default_pos := goal_pos;
     episode_num := 0; agent_pos := None; goal_cell := None |}.

(** [reset] up to the call of [_gen_grid], on a grid of [width] by
    [height]. *)
Definition reset_head (width height : Z) (self : FourRooms) : FourRooms :=
  let n := (episode_num self + 1)%Z in
  if bool_decide ((n `mod` 500)%Z = 0%Z) && bool_decide (((n `div` 500) `mod` 2)%Z = 1%Z)
  then {| agent_default_pos := agent_default_pos self;
          goal_default_pos := Some (height - 2, width - 2)%Z;
          episode_num := n; agent_pos := Some (1, 1)%Z;
          goal_cell := goal_cell self |}
  else {| agent_default_pos := agent_default_pos self;
          goal_default_pos := Some (height - 2, 1)%Z;
          episode_num := n; agent_pos := Some (1, width - 2)%Z;
          goal_cell := goal_cell self |}.

(** [grid.set(i, j, v)] asserts that the cell is on the grid. *)
Definition on_grid (width height : Z) (pos : Z * Z) : bool :=
  bool_decide (0 ≤ pos.1 < width)%Z && bool_decide (0 ≤ pos.2 < height)%Z.

(** The end of [_gen_grid], where the agent and the goal are put on
    the new grid. [placed_agent] and [placed_goal] are the cells that
    the library's [place_agent()] and [place_obj(Goal())] pick at
    random when they are called. *)
Definition gen_grid_place (width height : Z) (placed_agent placed_goal : Z * Z)
    (self : FourRooms) : option FourRooms :=
  agent ← match agent_default_pos self with
           | Some p => if on_grid width height p then Some p else None
           | None => Some placed_agent
           end;
  goal ← match goal_default_pos self with
          | Some p => if on_grid width height p then Some p else None
          | None => Some placed_goal
          end;
  Some {| agent_default_pos := agent_default_pos self;
          goal_default_pos := goal_default_pos self;
          episode_num := episode_num self;
          agent_pos := Some agent; goal_cell := Some goal |}.

(** [reset], as far as the agent and the goal go. *)
Definition reset (width height : Z) (placed : (Z * Z) * (Z * Z)) (self : FourRooms)
    : option FourRooms :=
  gen_grid_place width height placed.1 placed.2 (reset_head width height self).

(** One [reset] per element of [placed], in order. *)
Fixpoint resets (width height : Z) (placed : list ((Z * Z) * (Z * Z)))
    (self : FourRooms) : option FourRooms :=
  match placed with
  | [] => Some self
  | p :: placed' => self' ← reset width height p self; resets width height placed' self'
  end.

(** Consecutive sizes [(m, n)] of a layer list, each counted as the
    [n * m] weights and [n] biases of a linear layer. *)
Fixpoint layer_vars (sizes : list nat) : nat :=
  match sizes with
  | s0 :: ((s1 :: _) as sizes') => s1 * (s0 + 1) + layer_vars sizes'
  | _ => 0
  end.

(** ** More of the toy world *)

Module Treadmill.
(** An environment whose episodes never end of themselves; the state
    counts the steps. *)
#[export] Instance treadmill : Env := {|
  EnvState := nat;
  env_fn := 0;
  env_reset := λ _, ([0%Q], 0);
  env_step := λ s _, ([inject_Z (Z.of_nat (S s))], 1%Q, false, S s);
  obs_dim := 1;
  action_space_n := 2;
|}.

(** [Toy.small_config] with [max_ep_len = -1]. *)
Definition no_horizon_config : Config := {|
  seed := 0;
  steps_per_epoch := 4;
  epochs := 2;
  replay_size := 4;
  gamma := 1 # 2;
  polyak := 1 # 2;
  q_lr := 1 # 1000;
  batch_size := 2;
  update_interval := 2;
  max_ep_len := -1;
  grad_steps := 2;
  max_grad_norm := 10;
  exploration_start := 1;
  exploration_end := 3 # 8;
  exploration_decay := 1 # 2;
|}.

(** [Toy.small_config] with [update_interval = 0]. *)
Definition no_interval_config : Config := {|
  seed := 0;
  steps_per_epoch := 4;
  epochs := 2;
  replay_size := 4;
  gamma := 1 # 2;
  polyak := 1 # 2;
  q_lr := 1 # 1000;
  batch_size := 2;
  update_interval := 0;
  max_ep_len := 2;
  grad_steps := 2;
  max_grad_norm := 10;
  exploration_start := 1;
  exploration_end := 3 # 8;
  exploration_decay := 1 # 2;
|}.

(** [Toy.small_config] with [grad_steps = 0]. *)
Definition no_gradient_config : Config := {|
  seed := 0;
  steps_per_epoch := 4;
  epochs := 2;
  replay_size := 4;
  gamma := 1 # 2;
  polyak := 1 # 2;
  q_lr := 1 # 1000;
  batch_size := 2;
  update_interval := 2;
  max_ep_len := 2;
  grad_steps := 0;
  max_grad_norm := 10;
  exploration_start := 1;
  exploration_end := 3 # 8;
  exploration_decay := 1 # 2;
|}.

(** The parameters of a network of sizes 2, 3, 2: two weights and two
    biases. *)
Definition small_params : Params :=
  [ {| data := [1; 0; 0; 1; 1; 1]%Q; requires_grad := true |};
    {| data := [0; 0; -1]%Q; requires_grad := true |};
    {| data := [1; 0; 0; 0; 1; 1]%Q; requires_grad := true |};
    {| data := [0; 1 # 2]%Q; requires_grad := true |} ].
End Treadmill.

(** * Properties *)

(** ** Arithmetic of the cursor *)

Lemma mod_lt (a c : nat) : 0 < c → a `mod` c < c.
Proof. intros Hc. apply Nat.mod_upper_bound. lia. Qed.

Lemma mod_succ_le (a c : nat) : 0 < c → (a + 1) `mod` c ≤ a + 1.
Proof. intros Hc. apply Nat.Div0.mod_le. Qed.

Lemma mod_succ_mod (n c : nat) : 0 < c → (n `mod` c + 1) `mod` c = (n + 1) `mod` c.
Proof.
  intros Hc. rewrite <- (Nat.Div0.add_mod_idemp_l n 1 c). reflexivity.
Qed.

(** Two store counts less than a capacity apart use different slots. *)
Lemma mod_window_ne (j n c : nat) : j < n → n < j + c → j `mod` c ≠ n `mod` c.
Proof.
  intros Hj Hn Heq.
  pose proof (Nat.div_mod_eq j c) as Ej.
  pose proof (Nat.div_mod_eq n c) as En.
  rewrite Heq in Ej.
  assert (Hd : n - j = c * (n `div` c - j `div` c)) by nia.
  destruct (n `div` c - j `div` c) as [|k] eqn:Ek; nia.
Qed.

(** ** The replay buffer *)

Lemma setitem_Some {A} (a : list A) (i : nat) (x : A) :
  i < length a → setitem a i x = Some (<[i := x]> a).
Proof. intros Hi. unfold setitem. by rewrite decide_True. Qed.

Lemma np_zeros_Some {A} (zero : A) (n : Z) :
  (0 ≤ n)%Z → np_zeros zero n = Some (replicate (Z.to_nat n) zero).
Proof. intros Hn. unfold np_zeros. rewrite decide_False; [done | lia]. Qed.

Lemma ReplayBuffer_init_spec (obs_dim : nat) (c : Z) :
  (0 < c)%Z →
  ∃ b, ReplayBuffer_init obs_dim c = Some b ∧ buffer_ok b ∧
       max_size b = Z.to_nat c ∧ ptr b = 0 ∧ size b = 0 ∧
       ∀ i, i < Z.to_nat c → slot b i = Some (zero_row obs_dim).
Proof.
  intros Hc. unfold ReplayBuffer_init.
  rewrite !np_zeros_Some by lia. simpl.
  eexists; split; [reflexivity |].
  split; [constructor; simpl; rewrite ?length_replicate; lia |].
  split_and!; simpl; try done.
  intros i Hi. unfold slot; simpl.
  rewrite !lookup_replicate_2 by done. reflexivity.
Qed.

Lemma store_spec (b : ReplayBuffer) (x : Transition) :
  buffer_ok b →
  ∃ b', store_transition b x = Some b' ∧ buffer_ok b' ∧
        max_size b' = max_size b ∧
        ptr b' = (ptr b + 1) `mod` max_size b ∧
        size b' = (size b + 1) `min` max_size b ∧
        slot b' (ptr b) = Some (row_of x) ∧
        ∀ i, i ≠ ptr b → slot b' i = slot b i.
Proof.
  intros [H1 H2 H3 H4 H5 Hp Hs Hps].
  unfold store_transition, store.
  rewrite !setitem_Some by lia. simpl.
  rewrite decide_False by lia.
  eexists; split; [reflexivity |].
  assert (Hm : (ptr b + 1) `mod` max_size b < max_size b) by (apply mod_lt; lia).
  assert (Hm' : (ptr b + 1) `mod` max_size b ≤ ptr b + 1) by (apply mod_succ_le; lia).
  split; [constructor; simpl; rewrite ?length_insert; lia |].
  split_and!; simpl; try done.
  - unfold slot, row_of; simpl.
    rewrite !list_lookup_insert_eq by lia. reflexivity.
  - intros i Hi. unfold slot; simpl.
    rewrite !list_lookup_insert_ne by done. reflexivity.
Qed.

Lemma store_all_app (b : ReplayBuffer) (xs ys : list Transition) :
  store_all b (xs ++ ys) = store_all b xs ≫= λ b', store_all b' ys.
Proof.
  revert b; induction xs as [|x xs IH]; intros b; simpl; [done |].
  destruct (store_transition b x) as [b'|]; simpl; [apply IH | done].
Qed.

(** The state of the buffer after any sequence of stores into a fresh
    buffer: cursor, count, where each of the last [max_size]
    transitions lives, and that the other slots are as allocated. *)
Lemma store_all_spec (b0 : ReplayBuffer) (xs : list Transition) :
  buffer_ok b0 → ptr b0 = 0 → size b0 = 0 →
  ∃ b, store_all b0 xs = Some b ∧ buffer_ok b ∧
       max_size b = max_size b0 ∧
       ptr b = length xs `mod` max_size b0 ∧
       size b = length xs `min` max_size b0 ∧
       (∀ j x, xs !! j = Some x → length xs ≤ j + max_size b0 →
               slot b (j `mod` max_size b0) = Some (row_of x)) ∧
       (∀ i, length xs ≤ i → slot b i = slot b0 i).
Proof.
  intros Hok Hp Hs.
  assert (Hc : 0 < max_size b0) by (destruct Hok; lia).
  induction xs as [|x xs IH] using rev_ind.
  - exists b0. simpl. rewrite Nat.Div0.mod_0_l.
    split_and!; try done; try lia.
  - destruct IH as (b & Hb & Hokb & Hmax & Hptr & Hsize & Hin & Hout).
    destruct (store_spec b x Hokb) as (b' & Hb' & Hok' & Hmax' & Hptr' & Hsize' & Hnew & Hold).
    exists b'. rewrite store_all_app, Hb. simpl. rewrite Hb'. simpl.
    rewrite length_app. simpl.
    split; [done |]. split; [done |]. split; [congruence |].
    split; [rewrite Hptr', Hmax, Hptr; by apply mod_succ_mod |].
    split; [rewrite Hsize', Hmax, Hsize; lia |].
    split.
    + intros j y Hj Hwin.
      destruct (decide (j = length xs)) as [-> | Hne].
      * rewrite lookup_app_r, Nat.sub_diag in Hj by lia.
        simpl in Hj. injection Hj as <-. by rewrite <- Hptr.
      * assert (Hlt : j < length xs).
        { apply lookup_lt_Some in Hj. rewrite length_app in Hj. simpl in Hj. lia. }
        rewrite lookup_app_l in Hj by done.
        rewrite Hold; [apply (Hin j y Hj); lia |].
        rewrite Hptr. apply mod_window_ne; lia.
    + intros i Hi. rewrite Hold; [apply Hout; lia |].
      rewrite Hptr. intros ->.
      pose proof (Nat.Div0.mod_le (length xs) (max_size b0)). lia.
Qed.
Lemma rotate_nat_add_mod (n i c : nat) : 0 < c → rotate_nat_add n i c = (n + i) `mod` c.
Proof.
  intros Hc. unfold rotate_nat_add.
  rewrite Z2Nat.inj_mod, Z2Nat.inj_add, !Nat2Z.id; lia.
Qed.

Lemma mod_recent (n c k : nat) :
  0 < c → c ≤ n → (n - c + k) `mod` c = (n `mod` c + k) `mod` c.
Proof.
  intros Hc Hn.
  rewrite (Nat.Div0.add_mod_idemp_l n k c).
  replace (n + k) with (n - c + k + 1 * c) by lia.
  by rewrite Nat.Div0.mod_add.
Qed.

(** Once the buffer has wrapped, reading it from the cursor round gives
    the last [max_size] transitions, oldest first. *)
Lemma store_all_recent (b0 : ReplayBuffer) (xs : list Transition) (b : ReplayBuffer) :
  buffer_ok b0 → ptr b0 = 0 → size b0 = 0 →
  store_all b0 xs = Some b → max_size b0 ≤ length xs →
  (∀ k x, xs !! (length xs - max_size b0 + k) = Some x →
          slot b ((ptr b + k) `mod` max_size b0) = Some (row_of x)) ∧
  rotate (ptr b) (rows b) = (Some ∘ row_of) <$> drop (length xs - max_size b0) xs.
Proof.
  intros Hok Hp Hs Hb Hfull.
  assert (Hc : 0 < max_size b0) by (destruct Hok; lia).
  destruct (store_all_spec b0 xs Hok Hp Hs)
    as (b' & Hb' & Hokb & Hmax & Hptr & Hsize & Hin & _).
  rewrite Hb in Hb'. injection Hb' as <-.
  assert (Hpt : ∀ k x, xs !! (length xs - max_size b0 + k) = Some x →
                 slot b ((ptr b + k) `mod` max_size b0) = Some (row_of x)).
  { intros k x Hx. rewrite Hptr, <- mod_recent by lia.
    apply Hin; [done | lia]. }
  split; [exact Hpt |].
  apply list_eq. intros k.
  rewrite list_lookup_fmap, lookup_drop.
  destruct (decide (k < max_size b0)) as [Hk | Hk].
  - unfold rows. rewrite lookup_rotate_r by (rewrite length_fmap, length_seq; lia).
    rewrite length_fmap, length_seq, Hmax, rotate_nat_add_mod by done.
    rewrite list_lookup_fmap, lookup_seq_lt by (apply mod_lt; lia).
    simpl.
    destruct (lookup_lt_is_Some_2 xs (length xs - max_size b0 + k)) as [x Hx]; [lia |].
    rewrite Hx. simpl. f_equal. by apply Hpt.
  - rewrite (lookup_ge_None_2 (rotate _ _))
      by (rewrite length_rotate; unfold rows; rewrite length_fmap, length_seq; lia).
    by rewrite (lookup_ge_None_2 xs) by lia.
Qed.

(** C7. After any sequence of [store] calls on a fresh buffer of
    capacity [c > 0], every call having succeeded: [0 <= size <= c];
    [size] is the number of stores as long as it is below [c], and
    [min (number of stores) c] throughout; [ptr] is the number of stores
    modulo [c]; once [size = c] the buffer holds exactly the last [c]
    transitions stored, the [k]-th oldest of them at slot [(ptr + k) mod c];
    and one more [store] writes the slot at the old [ptr] and no other,
    then sets [ptr] to [(ptr + 1) mod c] and [size] to [min (size + 1) c]. *)
Theorem store_keeps_most_recent (obs_dim : nat) (c : Z) (xs : list Transition) :
  (0 < c)%Z →
  ∃ b0 b,
    ReplayBuffer_init obs_dim c = Some b0 ∧ store_all b0 xs = Some b ∧
    max_size b = Z.to_nat c ∧
    0 ≤ size b ≤ Z.to_nat c ∧
    (size b < Z.to_nat c → size b = length xs) ∧
    size b = length xs `min` Z.to_nat c ∧
    ptr b = length xs `mod` Z.to_nat c ∧
    (size b = Z.to_nat c →
       (∀ k x, xs !! (length xs - Z.to_nat c + k) = Some x →
               slot b ((ptr b + k) `mod` Z.to_nat c) = Some (row_of x)) ∧
       rotate (ptr b) (rows b) = (Some ∘ row_of) <$> drop (length xs - Z.to_nat c) xs) ∧
    (∀ x, ∃ b',
       store_transition b x = Some b' ∧
       ptr b' = (ptr b + 1) `mod` Z.to_nat c ∧
       size b' = (size b + 1) `min` Z.to_nat c ∧
       max_size b' = Z.to_nat c ∧
       slot b' (ptr b) = Some (row_of x) ∧
       ∀ i, i ≠ ptr b → slot b' i = slot b i).
Proof.
  intros Hc.
  destruct (ReplayBuffer_init_spec obs_dim c Hc)
    as (b0 & Hb0 & Hok0 & Hmax0 & Hp0 & Hs0 & _).
  destruct (store_all_spec b0 xs Hok0 Hp0 Hs0)
    as (b & Hb & Hok & Hmax & Hptr & Hsize & _ & _).
  rewrite Hmax0 in *.
  exists b0, b. split_and!; try done; try lia.
  - intros Hfull.
    pose proof (store_all_recent b0 xs b Hok0 Hp0 Hs0 Hb) as Hrec.
    rewrite Hmax0 in Hrec. apply Hrec. lia.
  - intros x.
    destruct (store_spec b x Hok) as (b' & Hb' & _ & Hmax' & Hptr' & Hsize' & Hnew & Hold).
    rewrite Hmax in *. exists b'. split_and!; try done; congruence.
Qed.

(** Capacity 2, three stores: the first transition has been overwritten. *)
Lemma store_keeps_most_recent_witness :
  ∃ b0 b,
    ReplayBuffer_init 1 2 = Some b0 ∧ store_all b0 [Toy.x1; Toy.x2; Toy.x3] = Some b ∧
    size b = 2 ∧ ptr b = 1 ∧
    rows b = [Some (row_of Toy.x3); Some (row_of Toy.x2)].
Proof.
  destruct (store_keeps_most_recent 1 2 [Toy.x1; Toy.x2; Toy.x3]) as
    (b0 & b & Hb0 & Hb & _ & _ & _ & Hsize & Hptr & _); [lia |].
  exists b0, b. split; [exact Hb0 |]. split; [exact Hb |].
  split; [exact Hsize |]. split; [exact Hptr |].
  vm_compute in Hb0. injection Hb0 as <-.
  vm_compute in Hb. injection Hb as <-.
  reflexivity.
Defined.

(** C1 (the code departs from the claim). [__len__] returns the write
    cursor: after the stores [xs] into a fresh buffer of capacity [c > 0]
    it is [length xs mod c], while the number of valid transitions is
    [size = min (length xs) c]. The two agree while fewer than [c]
    transitions have been stored, and [__len__] is strictly below [size]
    from the [c]-th store on. *)
Theorem len_is_cursor (obs_dim : nat) (c : Z) (xs : list Transition) :
  (0 < c)%Z →
  ∃ b0 b,
    ReplayBuffer_init obs_dim c = Some b0 ∧ store_all b0 xs = Some b ∧
    __len__ b = length xs `mod` Z.to_nat c ∧
    size b = length xs `min` Z.to_nat c ∧
    (length xs < Z.to_nat c → __len__ b = size b) ∧
    (Z.to_nat c ≤ length xs → __len__ b < size b).
Proof.
  intros Hc.
  destruct (ReplayBuffer_init_spec obs_dim c Hc)
    as (b0 & Hb0 & Hok0 & Hmax0 & Hp0 & Hs0 & _).
  destruct (store_all_spec b0 xs Hok0 Hp0 Hs0)
    as (b & Hb & Hok & Hmax & Hptr & Hsize & _ & _).
  rewrite Hmax0 in *. unfold __len__.
  exists b0, b. split_and!; try done.
  - intros Hlt. rewrite Hptr, Hsize, Nat.mod_small by done. lia.
  - intros Hge. rewrite Hptr, Hsize.
    pose proof (mod_lt (length xs) (Z.to_nat c)). lia.
Qed.

(** Capacity 2, two stores: two valid transitions, and a length of 0. *)
Lemma len_is_cursor_witness :
  ∃ b0 b,
    ReplayBuffer_init 1 2 = Some b0 ∧ store_all b0 [Toy.x1; Toy.x2] = Some b ∧
    size b = 2 ∧ __len__ b = 0.
Proof.
  destruct (len_is_cursor 1 2 [Toy.x1; Toy.x2]) as
    (b0 & b & Hb0 & Hb & Hlen & Hsize & _ & _); [lia |].
  exists b0, b. split; [exact Hb0 |]. split; [exact Hb |].
  split; [exact Hsize | exact Hlen].
Defined.

(** ** The Bellman backup *)

Lemma foldl_Qmax_ge (xs : list Q) (x : Q) :
  (x <= foldl Qmax x xs)%Q ∧ ∀ v, v ∈ xs → (v <= foldl Qmax x xs)%Q.
Proof.
  revert x; induction xs as [|y ys IH]; intros x; simpl.
  - split; [apply Qle_refl | intros v Hv; by apply elem_of_nil in Hv].
  - destruct (IH (Qmax x y)) as [H1 H2]. split.
    + eapply Qle_trans; [apply Q.le_max_l | exact H1].
    + intros v [-> | Hv]%elem_of_cons; [| by apply H2].
      eapply Qle_trans; [apply Q.le_max_r | exact H1].
Qed.

Lemma foldl_Qmax_attained (xs : list Q) (x : Q) :
  ∃ v, v ∈ x :: xs ∧ (v == foldl Qmax x xs)%Q.
Proof.
  revert x; induction xs as [|y ys IH]; intros x; simpl.
  - exists x. split; [apply elem_of_cons; by left | reflexivity].
  - destruct (IH (Qmax x y)) as (v & [-> | Hv]%elem_of_cons & Heq).
    + destruct (Q.max_spec x y) as [[_ Hm] | [_ Hm]].
      * exists y. split; [rewrite !elem_of_cons; auto |]. eapply Qeq_trans; [symmetry; apply Hm | exact Heq].
      * exists x. split; [rewrite !elem_of_cons; auto |]. eapply Qeq_trans; [symmetry; apply Hm | exact Heq].
    + exists v. split; [rewrite !elem_of_cons; auto | done].
Qed.

(** [tensor_max] is the maximum over the actions. *)
Lemma tensor_max_spec (row : list Q) (m : Q) :
  tensor_max row = Some m →
  (∀ v, v ∈ row → (v <= m)%Q) ∧ ∃ v, v ∈ row ∧ (v == m)%Q.
Proof.
  destruct row as [|x xs]; simpl; [done |]. intros [= <-].
  destruct (foldl_Qmax_ge xs x) as [H1 H2]. split.
  - intros v [-> | Hv]%elem_of_cons; auto.
  - apply foldl_Qmax_attained.
Qed.

Lemma backup_entry_terminal (gamma r d next_q : Q) :
  (d == 1)%Q → (backup_entry gamma r d next_q == r)%Q.
Proof. intros Hd. unfold backup_entry. rewrite Hd. ring. Qed.

Lemma bellman_backup_lookup (gamma : Q) (rs ds nqs : list Q) (i : nat) (r d nq : Q) :
  rs !! i = Some r → ds !! i = Some d → nqs !! i = Some nq →
  bellman_backup gamma rs ds nqs !! i = Some (backup_entry gamma r d nq).
Proof.
  intros Hr Hd Hn. unfold bellman_backup.
  rewrite lookup_zip_with, Hr. simpl.
  rewrite lookup_zip_with, Hd. simpl. by rewrite Hn.
Qed.

Lemma f32_max_choice (a b : float32) : f32_max a b = a ∨ f32_max a b = b.
Proof.
  unfold f32_max. destruct (f32_isnan a); [by left |].
  destruct (f32_isnan b); [by right |]. destruct (SFltb a b); auto.
Qed.

Lemma tensor_max_float32_elem (row : list float32) (m : float32) :
  tensor_max_float32 row = Some m → m ∈ row.
Proof.
  destruct row as [|x xs]; [done |]. simpl. intros [= <-].
  revert x. induction xs as [|y ys IH]; intros x; simpl.
  - apply elem_of_cons. by left.
  - destruct (f32_max_choice x y) as [-> | ->].
    + specialize (IH x). apply elem_of_cons in IH as [-> | Hin].
      * apply elem_of_cons. by left.
      * apply elem_of_cons. right. apply elem_of_cons. by right.
    + apply elem_of_cons. right. apply IH.
Qed.

(** At a terminal flag of [1.0] the product [gamma * (1 - d)] is a
    zero, and a zero times [next_q] is a zero for a finite [next_q]
    and NaN for an infinite or NaN one. *)
Lemma backup_entry_float32_terminal (gamma r next_q : float32) :
  f32_finite gamma = true →
  (f32_finite next_q = true →
   f32_same (backup_entry_float32 gamma r f32_one next_q) r) ∧
  (f32_finite next_q = false →
   backup_entry_float32 gamma r f32_one next_q = S754_nan).
Proof.
  intros Hg. unfold backup_entry_float32.
  change (f32_sub f32_one f32_one) with (S754_zero false).
  assert (Hz : ∃ s, f32_mul gamma (S754_zero false) = S754_zero s).
  { destruct gamma; try done; by eexists. }
  destruct Hz as [s ->]. split; intros Hn.
  - assert (Hz : ∃ s', f32_mul (S754_zero s) next_q = S754_zero s').
    { destruct next_q; try done; by eexists. }
    destruct Hz as [s' ->].
    destruct r as [sr | sr | | sr m e]; try (by left).
    right. destruct sr, s'; by eexists _, _.
  - assert (f32_mul (S754_zero s) next_q = S754_nan) as ->
      by (by destruct next_q).
    by destruct r.
Qed.

Lemma bellman_backup_float32_lookup (gamma : float32) (r d next_q : list float32)
    (i : nat) (ri di ni : float32) :
  r !! i = Some ri → d !! i = Some di → next_q !! i = Some ni →
  bellman_backup_float32 gamma r d next_q !! i
  = Some (backup_entry_float32 gamma ri di ni).
Proof.
  intros Hr Hd Hn. unfold bellman_backup_float32.
  apply lookup_zip_with_Some. exists ri, (di, ni). split; [done |].
  split; [done |]. apply lookup_zip_with_Some. by exists di, ni.
Qed.

Section Backup.
Context {gym : Env} {net : QNetwork} {optim : Optimizer} {np_random : NumpyRandom}.

Lemma next_q_of_lookup (targ : Params) (data : Batch) (nqs : list Q) (i : nat) (o2 : Obs) :
  next_q_of targ data = Some nqs → b_obs2 data !! i = Some o2 →
  ∃ nq, nqs !! i = Some nq ∧ tensor_max (q_forward targ o2) = Some nq.
Proof.
  intros Hn Ho. apply mapM_Some_1 in Hn.
  eapply Forall2_lookup_l in Hn as (nq & Hnq & Hmax);
    [| by rewrite list_lookup_fmap, Ho].
  by exists nq.
Qed.

(** The backup is computed whenever the target network returns at
    least one action value per observation. *)
Lemma compute_backup_Some (cfg : Config) (targ : Params) (data : Batch) :
  (∀ o2, o2 ∈ b_obs2 data → q_forward targ o2 ≠ []) →
  is_Some (compute_backup cfg targ data).
Proof.
  intros Hne. unfold compute_backup.
  assert (Hn : is_Some (next_q_of targ data)).
  { apply mapM_is_Some_2, Forall_fmap, list.Forall_forall. intros o2 Ho2. simpl.
    specialize (Hne o2 Ho2). destruct (q_forward targ o2); [done | by eexists]. }
  destruct Hn as [nqs ->]. by eexists.
Qed.

(** C3, as the code has it. Entry [i] of the backup that
    [compute_loss_q] regresses on is [r + gamma * (1 - d) * next_q],
    with [r] and [d] the reward and the terminal flag of transition [i]
    of the batch and [next_q] the largest of the action values of the
    target network at its next observation. The loss is the mean
    squared error of the gathered online values against this backup,
    which is the same value for every setting of the online parameters
    that the loss is differentiated in. In exact arithmetic the entry
    of a terminal transition equals [r]. In the float32 arithmetic the
    code runs in, with a finite [gamma], it is the number [r] when the
    largest target value is finite, and NaN when that value is
    infinite or NaN: zero times it is then NaN, so the entry does
    depend on what the target network returns. *)
Theorem backup_is_reward_at_terminal_for_finite_target (cfg : Config)
    (targ : Params) (data : Batch) (backup : list Q) (i : nat) (r d : Q)
    (o2 : Obs) :
  compute_backup cfg targ data = Some backup →
  b_rew data !! i = Some r → b_done data !! i = Some d →
  b_obs2 data !! i = Some o2 →
  (∃ next_q,
     tensor_max (q_forward targ o2) = Some next_q ∧
     (∀ v, v ∈ q_forward targ o2 → (v <= next_q)%Q) ∧
     (∃ v, v ∈ q_forward targ o2 ∧ (v == next_q)%Q) ∧
     backup !! i = Some (r + gamma cfg * (1 - d) * next_q)%Q ∧
     ((d == 1)%Q → ∃ y, backup !! i = Some y ∧ (y == r)%Q)) ∧
  (∀ online,
     compute_loss_q cfg online targ data
     = cur_q ← gather (q_forward online <$> b_obs data) (b_act data);
       Some (mse cur_q backup, cur_q)) ∧
  (∀ (gamma_f : float32) (next_q_rows : list (list float32))
     (rs ds backup_f : list float32) (row : list float32) (r_f : float32),
     compute_backup_float32 gamma_f next_q_rows rs ds = Some backup_f →
     next_q_rows !! i = Some row → rs !! i = Some r_f →
     ds !! i = Some f32_one → f32_finite gamma_f = true →
     ∃ next_q_f y,
       tensor_max_float32 row = Some next_q_f ∧ next_q_f ∈ row ∧
       backup_f !! i = Some y ∧
       y = backup_entry_float32 gamma_f r_f f32_one next_q_f ∧
       (f32_finite next_q_f = true → f32_same y r_f) ∧
       (f32_finite next_q_f = false → y = S754_nan)).
Proof.
  intros Hb Hr Hd Ho. unfold compute_backup in Hb.
  destruct (next_q_of targ data) as [nqs|] eqn:Hn; simpl in Hb; [| done].
  injection Hb as <-.
  destruct (next_q_of_lookup targ data nqs i o2 Hn Ho) as (nq & Hnq & Hmax).
  destruct (tensor_max_spec _ _ Hmax) as [Hge Hat].
  split; [| split].
  - exists nq. split; [done |]. split; [done |]. split; [done |].
    split; [by apply bellman_backup_lookup |].
    intros Hd1. eexists. split; [by apply bellman_backup_lookup |].
    by apply backup_entry_terminal.
  - intros online. unfold compute_loss_q, compute_backup. rewrite Hn.
    by destruct (gather _ _).
  - intros gamma_f rows rs ds backup_f row r_f Hbf Hrow Hrs Hds Hg.
    unfold compute_backup_float32 in Hbf.
    destruct (mapM tensor_max_float32 rows) as [nqf|] eqn:Hm; simpl in Hbf; [| done].
    injection Hbf as <-. apply mapM_Some_1 in Hm.
    destruct (Forall2_lookup_l _ _ _ _ _ Hm Hrow) as (m & Hnm & Hrm).
    exists m, (backup_entry_float32 gamma_f r_f f32_one m).
    split; [done |]. split; [by apply tensor_max_float32_elem |].
    split; [by apply bellman_backup_float32_lookup |]. split; [done |].
    by apply backup_entry_float32_terminal.
Qed.
End Backup.


(** ** The exploration schedule *)

(** The decay is applied to every rate above the floor, also when the
    product lands below the floor: the rate then undershoots, and the
    next call lifts it back to the floor. *)
Lemma exploration_schedule_undershoot (f d r : Q) :
  (f < r)%Q → (r * d < f)%Q →
  (exploration_schedule f d r < f)%Q ∧
  exploration_schedule f d (exploration_schedule f d r) = f.
Proof.
  intros Hr Hrd. unfold exploration_schedule.
  destruct (Qlt_le_dec f r) as [_ | Hle]; [| lra].
  split; [exact Hrd |].
  destruct (Qlt_le_dec f (r * d)) as [Hlt | _]; [lra | reflexivity].
Qed.

(** At or below the floor the schedule returns the floor. *)
Lemma exploration_schedule_floor (f d r : Q) :
  (r <= f)%Q → exploration_schedule f d r = f.
Proof.
  intros Hr. unfold exploration_schedule.
  destruct (Qlt_le_dec f r) as [Hlt | _]; [lra | reflexivity].
Qed.

Lemma exploration_rate_after_S (f d : Q) (n : nat) :
  exploration_rate_after f d (S n)
  = exploration_schedule f d (exploration_rate_after f d n).
Proof. reflexivity. Qed.

(** Once the rate is at or below the floor, it is the floor from the
    next step on. *)
Lemma exploration_rate_stays (f d : Q) (n m : nat) :
  (exploration_rate_after f d n <= f)%Q → n < m →
  exploration_rate_after f d m = f.
Proof.
  intros Hn Hm. induction Hm as [| m Hm IH]; rewrite exploration_rate_after_S.
  - by apply exploration_schedule_floor.
  - apply exploration_schedule_floor. rewrite IH. lra.
Qed.

(** As long as every earlier rate was above the floor, the rate is the
    power of the decay. *)
Lemma exploration_rate_power (f d : Q) (n : nat) :
  (∀ k, k < n → (f < exploration_rate_after f d k)%Q) →
  (exploration_rate_after f d n == decay_power d n)%Q.
Proof.
  induction n as [|n IH]; intros Habove; [reflexivity |].
  rewrite exploration_rate_after_S. unfold exploration_schedule.
  destruct (Qlt_le_dec f (exploration_rate_after f d n)) as [_ | Hle].
  - simpl. rewrite IH by (intros k Hk; apply Habove; lia). reflexivity.
  - specialize (Habove n ltac:(lia)). lra.
Qed.

(** Bernoulli, in the form that needs no division. *)
Lemma decay_power_bound (d : Q) (n : nat) :
  (0 <= d)%Q → (d <= 1)%Q →
  (0 <= decay_power d n)%Q ∧
  (decay_power d n * (1 + inject_Z (Z.of_nat n) * (1 - d)) <= 1)%Q.
Proof.
  intros Hd0 Hd1. induction n as [|n [IH0 IH]].
  - cbn [decay_power]. change (inject_Z (Z.of_nat 0)) with 0%Q. split; lra.
  - assert (Hn : (inject_Z (Z.of_nat (S n)) == inject_Z (Z.of_nat n) + 1)%Q).
    { rewrite Nat2Z.inj_succ, <- Z.add_1_r, inject_Z_plus. reflexivity. }
    rewrite Hn. simpl.
    assert (Hn0 : (0 <= inject_Z (Z.of_nat n))%Q).
    { rewrite <- (Zle_Qle 0). lia. }
    set (p := decay_power d n) in *. set (m := inject_Z (Z.of_nat n)) in *.
    split; [apply Qmult_le_0_compat; lra |].
    assert (Hstep : (p * d * (1 + (m + 1) * (1 - d))
                     == p * (1 + m * (1 - d)) - p * (m + 1) * (1 - d) * (1 - d))%Q) by ring.
    rewrite Hstep.
    assert (0 <= p * (m + 1) * (1 - d) * (1 - d))%Q; [| lra].
    repeat apply Qmult_le_0_compat; lra.
Qed.

Lemma Q_times_den (q : Q) :
  (q * inject_Z (Zpos (Qden q)) == inject_Z (Qnum q))%Q.
Proof. destruct q as [a b]. unfold Qeq, inject_Z. simpl. lia. Qed.

Lemma Q_num_ge_1 (q : Q) : (0 < q)%Q → (1 <= inject_Z (Qnum q))%Q.
Proof.
  destruct q as [a b]. unfold Qlt, Qle, inject_Z. simpl. lia.
Qed.

(** A decay below 1 brings the power under any positive floor. *)
Lemma decay_power_small (f d : Q) :
  (0 < f)%Q → (0 <= d)%Q → (d < 1)%Q → ∃ n, (decay_power d n <= f)%Q.
Proof.
  intros Hf Hd0 Hd1.
  set (e := (1 - d)%Q).
  assert (He : (0 < e)%Q) by (unfold e; lra).
  exists (Pos.to_nat (Qden f * Qden e)).
  destruct (decay_power_bound d (Pos.to_nat (Qden f * Qden e))) as [Hp0 Hp]; [lra.. |].
  rewrite positive_nat_Z in Hp. fold e in Hp.
  assert (Hn : (inject_Z (Z.pos (Qden f * Qden e))
                == inject_Z (Zpos (Qden f)) * inject_Z (Zpos (Qden e)))%Q).
  { rewrite Pos2Z.inj_mul, inject_Z_mult. reflexivity. }
  rewrite Hn in Hp.
  pose proof (Q_times_den f) as Hfd. pose proof (Q_times_den e) as Hed.
  pose proof (Q_num_ge_1 f Hf) as Hfn. pose proof (Q_num_ge_1 e He) as Hen.
  set (p := decay_power d _) in *.
  set (a := inject_Z (Z.pos (Qden f))) in *. set (b := inject_Z (Z.pos (Qden e))) in *.
  assert (Hs : (1 <= f * (a * b * e))%Q).
  { assert (Heq : (f * (a * b * e) == (f * a) * (e * b))%Q) by ring.
    rewrite Heq, Hfd, Hed.
    assert (0 <= (inject_Z (Qnum f) - 1) * (inject_Z (Qnum e) - 1))%Q
      by (apply Qmult_le_0_compat; lra).
    lra. }
  assert (Hprod : (0 <= p * (f * (a * b * e) - 1))%Q)
    by (apply Qmult_le_0_compat; lra).
  assert (Hfp : (0 <= f * (1 - p * (1 + a * b * e)))%Q)
    by (apply Qmult_le_0_compat; lra).
  assert (Hid : (f - p == f * (1 - p * (1 + a * b * e)) + p * (f * (a * b * e) - 1) + f * p)%Q)
    by ring.
  assert (0 <= f * p)%Q by (apply Qmult_le_0_compat; lra).
  lra.
Qed.

Lemma exploration_rate_above_or_reached (f d : Q) (n : nat) :
  (∀ k, k < n → (f < exploration_rate_after f d k)%Q) ∨
  (∃ k, k < n ∧ (exploration_rate_after f d k <= f)%Q).
Proof.
  induction n as [|n [IH | (k & Hk & Hle)]].
  - left. intros k Hk. lia.
  - destruct (Qlt_le_dec f (exploration_rate_after f d n)) as [Hlt | Hle].
    + left. intros k Hk. destruct (decide (k = n)) as [-> | Hne]; [done |].
      apply IH. lia.
    + right. exists n. split; [lia | done].
  - right. exists k. split; [lia | done].
Qed.

(** With a positive floor and a decay in [[0, 1)], the rate is the
    floor from some step on: the sequence does converge to the floor. *)
Lemma exploration_rate_converges (f d : Q) :
  (0 < f)%Q → (0 <= d)%Q → (d < 1)%Q →
  ∃ n0, ∀ m, n0 < m → exploration_rate_after f d m = f.
Proof.
  intros Hf Hd0 Hd1.
  destruct (decay_power_small f d Hf Hd0 Hd1) as [n Hn].
  destruct (exploration_rate_above_or_reached f d n) as [Habove | (k & _ & Hle)].
  - exists n. intros m Hm. apply (exploration_rate_stays f d n m); [| done].
    by rewrite exploration_rate_power.
  - exists k. intros m Hm. by apply (exploration_rate_stays f d k m).
Qed.

(** C5 (the code departs from the claim). With the floor 3/8 and the
    decay 1/2 the rates after 0, 1, 2 and 3 steps are 1, 1/2, 1/4 and
    3/8: the rate after two steps is below the floor, and the rate
    after three steps is above the rate after two. *)
Theorem exploration_rate_dips_below_floor :
  exploration_rate_after (3 # 8) (1 # 2) <$> [0; 1; 2; 3]
    = [1%Q; 1 # 2; 1 # 4; 3 # 8] ∧
  (exploration_rate_after (3 # 8) (1 # 2) 2 < 3 # 8)%Q ∧
  (exploration_rate_after (3 # 8) (1 # 2) 2
     < exploration_rate_after (3 # 8) (1 # 2) 3)%Q.
Proof. split; [reflexivity |]. split; reflexivity. Qed.

(** The same with the defaults of [dqn], floor 0.05 and decay 0.99995,
    in binary64 arithmetic: the rate after 59914 steps is below the
    floor, and the rate after 59915 steps is the floor. *)
Lemma default_exploration_rate_dips_below_floor :
  PrimFloat.ltb
    (exploration_rate_after_float default_exploration_end_float
       default_exploration_decay_float 59914)
    default_exploration_end_float = true ∧
  exploration_rate_after_float default_exploration_end_float
    default_exploration_decay_float 59915
  = default_exploration_end_float.
Proof. split; vm_compute; reflexivity. Qed.

(** ** Gradient steps and target synchronisation *)

Lemma freeze_frozen (m : Params) : frozen (freeze m).
Proof. unfold frozen, freeze. apply Forall_fmap, list.Forall_forall. done. Qed.

Lemma polyak_average_frozen (polyak : Q) (online targ : Params) :
  frozen targ → frozen (polyak_average polyak online targ).
Proof.
  unfold frozen. revert targ; induction online as [|p ps IH]; intros [|pt pts] Hf;
    simpl; try done.
  inversion Hf; subst. constructor; [done | by apply IH].
Qed.

(** The Polyak block, entry by entry. *)
Lemma polyak_average_lookup (polyak : Q) (online targ : Params) (i j : nat)
    (p p_targ : Tensor) (x x_targ : Q) :
  online !! i = Some p → targ !! i = Some p_targ →
  data p !! j = Some x → data p_targ !! j = Some x_targ →
  ∃ p', polyak_average polyak online targ !! i = Some p' ∧
        data p' !! j = Some (x_targ * polyak + (1 - polyak) * x)%Q.
Proof.
  revert targ i; induction online as [|q qs IH]; intros [|qt qts] i Hp Ht Hx Hxt;
    try done.
  destruct i as [|i]; simpl in *.
  - injection Hp as ->. injection Ht as ->.
    eexists; split; [reflexivity |]. simpl.
    by rewrite lookup_zip_with, Hxt; simpl; rewrite Hx.
  - by apply IH.
Qed.

Lemma polyak_average_length (polyak : Q) (online targ : Params) :
  length (polyak_average polyak online targ) = length targ.
Proof.
  revert targ; induction online as [|q qs IH]; intros [|qt qts]; simpl; auto.
Qed.

Section Update.
Context {gym : Env} {net : QNetwork} {optim : Optimizer} {np_random : NumpyRandom}.

Lemma same_world_refl (st : State) : same_world st st.
Proof. by repeat split. Qed.

Lemma same_world_trans (st1 st2 st3 : State) :
  same_world st1 st2 → same_world st2 st3 → same_world st1 st3.
Proof. unfold same_world. intuition congruence. Qed.

(** One gradient step: the online parameters and the moments are what
    the optimiser returns for the loss on [data], taken as a function
    of the online parameters with the target parameters held fixed;
    the target parameters are not written. *)
Lemma gradient_step_spec (cfg : Config) (data : Batch) (st st' : State) (l : Q * list Q) :
  gradient_step cfg data st = Some (st', l) →
  compute_loss_q cfg (q_net st) (q_net_targ st) data = Some l ∧
  (q_net st', q_optimizer st')
    = Adam_step (q_optimizer st)
        (λ online, fst <$> compute_loss_q cfg online (q_net_targ st) data)
        (max_grad_norm cfg) (q_net st) ∧
  q_net_targ st' = q_net_targ st ∧
  same_world st st' ∧
  trace st' = trace st ++ [Ev_gradient_step data].
Proof.
  unfold gradient_step. intros Hg.
  destruct (compute_loss_q cfg (q_net st) (q_net_targ st) data) as [l0|]; [| done].
  simpl in Hg.
  destruct (Adam_step _ _ _ _) as [online' moments'].
  injection Hg as <- <-. simpl. by repeat split.
Qed.

Lemma gradient_loop_spec (cfg : Config) (data : Batch) (n : nat) (st st' : State)
    (last last' : option (Q * list Q)) :
  gradient_loop cfg data n st last = Some (st', last') →
  q_net_targ st' = q_net_targ st ∧
  same_world st st' ∧
  trace st' = trace st ++ replicate n (Ev_gradient_step data) ∧
  (n = 0 → st' = st ∧ last' = last) ∧
  (0 < n → is_Some last').
Proof.
  revert st last; induction n as [|n IH]; intros st last Hl; simpl in Hl.
  - injection Hl as <- <-. rewrite app_nil_r.
    split_and!; try done; try apply same_world_refl; lia.
  - destruct (gradient_step cfg data st) as [[s1 l]|] eqn:Hs; [| done]. simpl in Hl.
    destruct (gradient_step_spec _ _ _ _ _ Hs) as (_ & _ & Ht & Hw & Htr).
    destruct (IH _ _ Hl) as (Ht' & Hw' & Htr' & H0 & Hpos).
    split_and!.
    + congruence.
    + by eapply same_world_trans.
    + rewrite Htr', Htr. simpl. by rewrite <- app_assoc.
    + lia.
    + intros _. destruct n; [| apply Hpos; lia].
      destruct H0 as [_ ->]; [done | by eexists].
Qed.

Lemma polyak_step_spec (cfg : Config) (st : State) :
  q_net (polyak_step cfg st) = q_net st ∧
  q_net_targ (polyak_step cfg st)
    = polyak_average (polyak cfg) (q_net st) (q_net_targ st) ∧
  q_optimizer (polyak_step cfg st) = q_optimizer st ∧
  same_world st (polyak_step cfg st) ∧
  trace (polyak_step cfg st) = trace st ++ [Ev_polyak].
Proof. by repeat split. Qed.

(** A call of [update] that returns ran at least one gradient step,
    then the Polyak block, once. *)
Lemma update_spec (cfg : Config) (data : Batch) (g : Z) (st st' : State) :
  update cfg data g st = Some st' →
  (0 < g)%Z ∧
  ∃ st1 l,
    gradient_loop cfg data (Z.to_nat g) st None = Some (st1, Some l) ∧
    st' = polyak_step cfg st1 ∧
    same_world st st' ∧
    trace st' = trace st ++ update_trace g data.
Proof.
  unfold update. intros Hu.
  destruct (gradient_loop cfg data (Z.to_nat g) st None) as [[st1 last]|] eqn:Hl;
    [| done].
  simpl in Hu. destruct last as [l|]; [| done]. simpl in Hu. injection Hu as <-.
  destruct (gradient_loop_spec _ _ _ _ _ _ _ Hl) as (Ht & Hw & Htr & H0 & _).
  split.
  - destruct (decide (0 < g)%Z) as [Hg | Hg]; [done |].
    destruct H0 as [_ Hlast]; [lia | done].
  - exists st1, l. split; [done |]. split; [done |]. split.
    + eapply same_world_trans; [exact Hw |]. apply polyak_step_spec.
    + unfold update_trace. simpl. rewrite Htr. by rewrite <- app_assoc.
Qed.

(** A call of [update] with [grad_steps >= 1] returns whenever the loss
    can be computed on the batch, for every setting of the online
    parameters. *)
Lemma update_returns (cfg : Config) (batch : Batch) (g : Z) (st : State) :
  (0 < g)%Z →
  (∀ online, is_Some (compute_loss_q cfg online (q_net_targ st) batch)) →
  is_Some (update cfg batch g st).
Proof.
  intros Hg Hloss. unfold update.
  assert (Hloop : ∀ n s last, q_net_targ s = q_net_targ st →
            ∃ s' last', gradient_loop cfg batch n s last = Some (s', last') ∧
                        (0 < n → is_Some last')).
  { induction n as [|n IH]; intros s last Hs; simpl.
    - exists s, last. split; [done | lia].
    - unfold gradient_step.
      destruct (Hloss (q_net s)) as [l Hl]. rewrite Hs, Hl. simpl.
      destruct (Adam_step _ _ _ _) as [online' moments']. simpl.
      edestruct IH as (s' & last' & Hs' & Hlast); [| rewrite Hs'].
      + reflexivity.
      + exists s', last'. split; [done |]. intros _.
        destruct n; [| apply Hlast; lia].
        simpl in Hs'. injection Hs' as _ <-. by eexists. }
  destruct (Hloop (Z.to_nat g) st None eq_refl) as (s' & last' & -> & Hlast).
  simpl. destruct Hlast as [l ->]; [lia |]. simpl. by eexists.
Qed.

(** C4. Within a call of [update] that returns: every gradient step
    hands the optimiser the online parameters and nothing else, and
    leaves the target parameters as they were, so that they are the
    same after any number of the steps; the target parameters after the
    call are one Polyak average of the target parameters before the
    call with the online parameters after the last gradient step, each
    entry being [polyak * p_targ + (1 - polyak) * p_online]; the call
    records its gradient steps and then exactly one Polyak step; and
    target parameters whose [requires_grad] is off keep it off. *)
Theorem target_moves_only_by_polyak (cfg : Config) (batch : Batch) (g : Z)
    (st st' : State) :
  update cfg batch g st = Some st' →
  (∀ s s' l, gradient_step cfg batch s = Some (s', l) →
     (q_net s', q_optimizer s')
       = Adam_step (q_optimizer s)
           (λ online, fst <$> compute_loss_q cfg online (q_net_targ s) batch)
           (max_grad_norm cfg) (q_net s) ∧
     q_net_targ s' = q_net_targ s) ∧
  (∀ k stk lk, gradient_loop cfg batch k st None = Some (stk, lk) →
     q_net_targ stk = q_net_targ st) ∧
  ∃ st1 l,
    gradient_loop cfg batch (Z.to_nat g) st None = Some (st1, Some l) ∧
    q_net st' = q_net st1 ∧
    q_net_targ st' = polyak_average (polyak cfg) (q_net st1) (q_net_targ st) ∧
    (∀ i j p p_targ x x_targ,
       q_net st1 !! i = Some p → q_net_targ st !! i = Some p_targ →
       data p !! j = Some x → data p_targ !! j = Some x_targ →
       ∃ p' y, q_net_targ st' !! i = Some p' ∧ data p' !! j = Some y ∧
               (y == polyak cfg * x_targ + (1 - polyak cfg) * x)%Q) ∧
    trace st' = trace st ++ replicate (Z.to_nat g) (Ev_gradient_step batch) ++ [Ev_polyak] ∧
    (frozen (q_net_targ st) → frozen (q_net_targ st')).
Proof.
  intros Hu. split_and!.
  - intros s s' l Hs.
    by destruct (gradient_step_spec _ _ _ _ _ Hs) as (_ & Hadam & Ht & _).
  - intros k stk lk Hk.
    by destruct (gradient_loop_spec _ _ _ _ _ _ _ Hk) as (Ht & _).
  - destruct (update_spec _ _ _ _ _ Hu) as (_ & st1 & l & Hl & -> & _ & Htr).
    destruct (gradient_loop_spec _ _ _ _ _ _ _ Hl) as (Ht & _).
    exists st1, l. simpl. rewrite Ht. split_and!; try done.
    + intros i j p p_targ x x_targ Hp Hpt Hx Hxt.
      destruct (polyak_average_lookup (polyak cfg) _ _ i j p p_targ x x_targ Hp Hpt Hx Hxt)
        as (p' & Hp' & Hy).
      exists p', (x_targ * polyak cfg + (1 - polyak cfg) * x)%Q.
      split_and!; [done | done | ring].
    + apply polyak_average_frozen.
Qed.

(** One sample-and-update cycle draws one batch and makes one call of
    [update] on it; the buffer is as before. *)
Lemma sample_and_update_spec (cfg : Config) (st st' : State) :
  sample_and_update cfg st = Some st' →
  ∃ batch idxs g',
    sample_batch (replay_buffer st) (batch_size cfg) (rng st)
      = Some (batch, idxs, replay_buffer st, g') ∧
    replay_buffer st' = replay_buffer st ∧
    rng st' = g' ∧
    trace st' = trace st ++ cycle_trace (grad_steps cfg) (idxs, batch).
Proof.
  unfold sample_and_update. intros Hs.
  destruct (sample_batch _ _ _) as [[[[batch idxs] buf] g']|] eqn:Hb; [| done].
  simpl in Hs.
  assert (Hbuf : buf = replay_buffer st).
  { unfold sample_batch in Hb.
    destruct (np_random_randint _ _ _) as [[i1 g1]|]; [| done]. simpl in Hb.
    destruct (take_batch _ _); [| done]. simpl in Hb. by injection Hb as _ _ <- _. }
  subst buf.
  destruct (update_spec _ _ _ _ _ Hs) as (_ & _ & _ & _ & _ & Hw & Htr).
  exists batch, idxs, g'. split; [done |].
  destruct Hw as (_ & _ & _ & _ & _ & Hrb & Hrng). simpl in *.
  split_and!; try done.
  rewrite Htr. simpl. by rewrite <- app_assoc.
Qed.

Lemma update_cycles_spec (cfg : Config) (n : nat) (st st' : State) :
  update_cycles cfg n st = Some st' →
  ∃ draws : list (list nat * Batch),
    length draws = n ∧
    replay_buffer st' = replay_buffer st ∧
    trace st' = trace st ++ (draws ≫= cycle_trace (grad_steps cfg)) ∧
    (n = 0 → st' = st).
Proof.
  revert st; induction n as [|n IH]; intros st Hc; simpl in Hc.
  - injection Hc as <-. exists []. simpl. by rewrite app_nil_r.
  - destruct (sample_and_update cfg st) as [s1|] eqn:Hs; [| done]. simpl in Hc.
    destruct (sample_and_update_spec _ _ _ Hs) as (batch & idxs & g' & _ & Hrb & _ & Htr).
    destruct (IH _ Hc) as (draws & Hlen & Hrb' & Htr' & _).
    exists ((idxs, batch) :: draws). split_and!.
    + simpl. by rewrite Hlen.
    + congruence.
    + rewrite Htr', Htr. simpl. by rewrite <- !app_assoc.
    + lia.
Qed.

End Update.

(** ** The interaction loop *)

Lemma store_written (b b' : ReplayBuffer) (x : Transition) :
  store_transition b x = Some b' →
  slot b' (ptr b) = Some (row_of x) ∧
  ptr b' = (ptr b + 1) `mod` max_size b ∧
  size b' = (size b + 1) `min` max_size b ∧
  max_size b' = max_size b.
Proof.
  unfold store_transition, store, setitem. intros Hs.
  repeat case_decide; simpl in Hs; try done.
  injection Hs as <-. unfold slot, row_of. simpl.
  by rewrite !list_lookup_insert_eq by done.
Qed.

Section Loop.
Context {gym : Env} {net : QNetwork} {optim : Optimizer} {np_random : NumpyRandom}.

(** The update block does not run while the cursor is below the batch
    size, whatever the step and the number of valid transitions. *)
Lemma update_due_small_cursor (cfg : Config) (t : nat) (buf : ReplayBuffer) :
  (Z.of_nat (ptr buf) < batch_size cfg)%Z → update_due cfg t buf = Some false.
Proof.
  intros Hp. unfold update_due, __len__. by rewrite decide_False by lia.
Qed.

Lemma update_due_true (cfg : Config) (t : nat) (buf : ReplayBuffer) :
  update_due cfg t buf = Some true →
  (batch_size cfg ≤ Z.of_nat (ptr buf))%Z ∧
  update_interval cfg ≠ 0%Z ∧
  ((Z.of_nat t + 1) `mod` update_interval cfg = 0)%Z.
Proof.
  unfold update_due, __len__. intros Hd.
  repeat case_decide; try done.
  all: injection Hd as Hd; apply bool_decide_eq_true in Hd; done.
Qed.

Lemma update_handling_spec (cfg : Config) (t : nat) (st st' : State) :
  update_handling cfg t st = Some st' →
  ∃ (due : bool) (draws : list (list nat * Batch)),
    update_due cfg t (replay_buffer st) = Some due ∧
    length draws = (if due then Z.to_nat (update_interval cfg) else 0) ∧
    replay_buffer st' = replay_buffer st ∧
    trace st' = trace st ++ (draws ≫= cycle_trace (grad_steps cfg)) ∧
    (due = false → st' = st).
Proof.
  unfold update_handling. intros Hu.
  destruct (update_due cfg t (replay_buffer st)) as [due|]; [| done]. simpl in Hu.
  destruct due.
  - destruct (update_cycles_spec _ _ _ _ Hu) as (draws & Hlen & Hrb & Htr & _).
    exists true, draws. by split_and!.
  - injection Hu as <-. exists false, []. simpl. rewrite app_nil_r. by split_and!.
Qed.

(** One iteration of the loop, unfolded. *)
Lemma loop_body_spec (cfg : Config) (t : nat) (st st' : State) :
  loop_body cfg t st = Some st' →
  ∃ a g1 o2 r d0 env1 (due : bool) (draws : list (list nat * Batch)),
    get_action st = Some (a, g1) ∧
    env_step (env st) a = (o2, r, d0, env1) ∧
    let x := {| tr_obs := o st; tr_act := a; tr_rew := r; tr_next_obs := o2;
                tr_done := stored_done cfg (ep_len st + 1) d0 |} in
    store_transition (replay_buffer st) x = Some (replay_buffer st') ∧
    update_due cfg t (replay_buffer st') = Some due ∧
    length draws = (if due then Z.to_nat (update_interval cfg) else 0) ∧
    trace st' = trace st ++ Ev_store x :: (draws ≫= cycle_trace (grad_steps cfg)) ∧
    (due = false →
       q_net st' = q_net st ∧ q_net_targ st' = q_net_targ st ∧
       exploration_rate st'
         = exploration_schedule (exploration_end cfg) (exploration_decay cfg)
             (exploration_rate st)).
Proof.
  unfold loop_body. intros Hl.
  destruct (get_action st) as [[a g1]|]; [| done]. simpl in Hl.
  destruct (env_step (env st) a) as [[[o2 r] d0] env1] eqn:Hstep.
  destruct (store_transition _ _) as [buf1|] eqn:Hst; [| done]. simpl in Hl.
  destruct (stored_done cfg (ep_len st + 1) d0
            || bool_decide ((ep_len st + 1)%Z = max_ep_len cfg));
    [destruct (env_reset env1) as [o0 env2] |].
  all: destruct (update_handling_spec _ _ _ _ Hl)
         as (due & draws & Hdue & Hlen & Hrb & Htr & Hno).
  all: simpl in *.
  all: exists a, g1, o2, r, d0, env1, due, draws; rewrite Hrb.
  all: split_and!; try done;
         [by rewrite Htr, <- app_assoc | intros ->; by rewrite Hno].
Qed.

(** C2 (the code departs from the claim). The condition of the update
    block reads [len(replay_buffer)], the write cursor: an iteration
    whose store leaves the cursor below [batch_size] runs no update, and
    leaves both networks as they were, whatever the number of valid
    transitions and whatever [(t + 1) mod update_interval]. *)
Theorem update_skipped_when_cursor_small (cfg : Config) (t : nat) (st st' : State) :
  loop_body cfg t st = Some st' →
  (Z.of_nat (ptr (replay_buffer st')) < batch_size cfg)%Z →
  (∃ x, trace st' = trace st ++ [Ev_store x]) ∧
  q_net st' = q_net st ∧ q_net_targ st' = q_net_targ st.
Proof.
  intros Hl Hp.
  destruct (loop_body_spec _ _ _ _ Hl)
    as (a & g1 & o2 & r & d0 & env1 & due & draws & _ & _ & _ & Hdue & Hlen & Htr & Hno).
  rewrite update_due_small_cursor in Hdue by done. injection Hdue as <-.
  destruct draws; [| done]. destruct Hno as (Hq & Ht & _); [done |].
  split; [by eexists | done].
Qed.

(** With the defaults of [dqn], whatever the environment: once
    [replay_size = 100000] transitions are stored the buffer is full and
    the cursor is back at 0, below [batch_size = 128], so that the
    update block of that step does not run. *)
Lemma default_update_skipped_at_wraparound (d : nat) (xs : list Transition) (t : nat) :
  length xs = Z.to_nat (replay_size default_config) →
  ∃ b0 b,
    ReplayBuffer_init d (replay_size default_config) = Some b0 ∧
    store_all b0 xs = Some b ∧
    Z.of_nat (size b) = replay_size default_config ∧
    update_due default_config t b = Some false.
Proof.
  intros Hlen.
  destruct (ReplayBuffer_init_spec d (replay_size default_config))
    as (b0 & Hb0 & Hok0 & Hmax0 & Hp0 & Hs0 & _); [done |].
  destruct (store_all_spec b0 xs Hok0 Hp0 Hs0)
    as (b & Hb & Hok & Hmax & Hptr & Hsize & _ & _).
  exists b0, b. split; [done |]. split; [done |].
  rewrite Hmax0, Hlen in Hptr, Hsize.
  rewrite Nat.Div0.mod_same in Hptr. rewrite Nat.min_id in Hsize.
  split; [rewrite Hsize; apply Z2Nat.id; done |].
  apply update_due_small_cursor. rewrite Hptr. done.
Qed.

(** What the condition gets right: an update block that runs has at
    least [batch_size] valid transitions to draw from, comes at a step
    with [(t + 1) mod update_interval = 0], and is [update_interval]
    sample-and-update cycles; and no block runs while fewer than
    [batch_size] transitions are valid. *)
Lemma update_block_when_run (cfg : Config) (t : nat) (st st' : State) :
  loop_body cfg t st = Some st' → buffer_ok (replay_buffer st) →
  ∃ (due : bool) x (draws : list (list nat * Batch)),
    update_due cfg t (replay_buffer st') = Some due ∧
    trace st' = trace st ++ Ev_store x :: (draws ≫= cycle_trace (grad_steps cfg)) ∧
    length draws = (if due then Z.to_nat (update_interval cfg) else 0) ∧
    (due = true →
       (batch_size cfg ≤ Z.of_nat (size (replay_buffer st')))%Z ∧
       ((Z.of_nat t + 1) `mod` update_interval cfg = 0)%Z) ∧
    ((Z.of_nat (size (replay_buffer st')) < batch_size cfg)%Z → due = false).
Proof.
  intros Hl Hok.
  destruct (loop_body_spec _ _ _ _ Hl)
    as (a & g1 & o2 & r & d0 & env1 & due & draws & _ & _ & Hst & Hdue & Hlen & Htr & _).
  destruct (store_spec (replay_buffer st)
              {| tr_obs := o st; tr_act := a; tr_rew := r; tr_next_obs := o2;
                 tr_done := stored_done cfg (ep_len st + 1) d0 |} Hok)
    as (b' & Hb' & Hok' & _).
  rewrite Hst in Hb'. injection Hb' as <-.
  eexists due, _, draws. split; [done |]. split; [done |]. split; [done |].
  destruct due.
  - destruct (update_due_true _ _ _ Hdue) as (Hbs & _ & Hmod).
    destruct Hok'. split; [intros _; split; [lia | done] | lia].
  - split; [done | done].
Qed.
End Loop.

(** ** The stored terminal flag *)

Section Flag.
Context {gym : Env} {net : QNetwork} {optim : Optimizer} {np_random : NumpyRandom}.

Lemma stored_done_true (cfg : Config) (ep_len1 : Z) (d0 : bool) :
  stored_done cfg ep_len1 d0 = true ↔ d0 = true ∧ ep_len1 ≠ max_ep_len cfg.
Proof.
  unfold stored_done. destruct (decide (ep_len1 = max_ep_len cfg)) as [He | He].
  - split; [done | by intros [_ ?]].
  - split; [by intros -> | by intros [-> _]].
Qed.

(** C6, as the code has it. The flag stored by an iteration of the
    loop is true if and only if the environment returned [done = True]
    for the step and the length of the episode after the step is not
    [max_ep_len]; at a step that brings the episode to [max_ep_len] the
    flag 0 is stored, whatever the environment returned. *)
Theorem stored_flag_is_done_before_horizon (cfg : Config) (t : nat) (st st' : State) :
  loop_body cfg t st = Some st' →
  ∃ a g1 o2 r d0 env1 (flag : bool),
    get_action st = Some (a, g1) ∧
    env_step (env st) a = (o2, r, d0, env1) ∧
    done_buf (replay_buffer st') !! ptr (replay_buffer st)
      = Some (float_of_bool flag) ∧
    (flag = true ↔ d0 = true ∧ (ep_len st + 1)%Z ≠ max_ep_len cfg) ∧
    ((ep_len st + 1)%Z = max_ep_len cfg → flag = false).
Proof.
  intros Hl.
  destruct (loop_body_spec _ _ _ _ Hl)
    as (a & g1 & o2 & r & d0 & env1 & due & draws & Ha & Hs & Hst & _).
  exists a, g1, o2, r, d0, env1, (stored_done cfg (ep_len st + 1) d0).
  split; [done |]. split; [done |].
  destruct (store_written _ _ _ Hst) as (Hslot & _).
  split_and!.
  - unfold slot in Hslot. simpl in Hslot.
    repeat (match type of Hslot with
            | context [?l !! ?i] => destruct (l !! i) eqn:?; simpl in Hslot; [| done]
            end).
    unfold row_of in Hslot. simpl in Hslot. congruence.
  - apply stored_done_true.
  - intros Heq. unfold stored_done. by rewrite decide_True.
Qed.
End Flag.

(** ** Sampling *)

(** The sample space is the product [[low, high)^n]. *)
Lemma randint_outcomes_spec (low high n : nat) (idxs : list nat) :
  idxs ∈ randint_outcomes low high n ↔
  length idxs = n ∧ Forall (λ i, low ≤ i < high) idxs.
Proof.
  revert idxs; induction n as [|n IH]; intros idxs; simpl.
  - rewrite elem_of_cons, elem_of_nil. split.
    + intros [-> | []]. by split.
    + intros [Hl _]. left. by destruct idxs.
  - rewrite list_elem_of_bind. split.
    + intros (i & (tl & -> & Htl)%list_elem_of_fmap & Hi%elem_of_seq).
      apply IH in Htl as [Hlen Hall]. simpl. split; [by rewrite Hlen |].
      constructor; [lia | done].
    + intros [Hlen Hall]. destruct idxs as [|i tl]; [done |].
      apply list.Forall_cons in Hall as [Hi Htl]. exists i. split.
      * apply list_elem_of_fmap. exists tl. split; [done |].
        apply IH. simpl in Hlen. split; [lia | done].
      * apply elem_of_seq. lia.
Qed.

(** No vector is listed twice. *)
Lemma randint_outcomes_NoDup (low high n : nat) :
  NoDup (randint_outcomes low high n).
Proof.
  induction n as [|n IH]; simpl.
  - apply NoDup_singleton.
  - apply NoDup_bind.
    + intros i1 i2 idxs _ _ (t1 & -> & _)%list_elem_of_fmap (t2 & Heq & _)%list_elem_of_fmap.
      by injection Heq.
    + intros i _. apply NoDup_fmap_2; [| done]. by intros ?? [=].
    + apply NoDup_seq.
Qed.

Lemma length_bind_const {A B} (f : A → list B) (l : list A) (m : nat) :
  (∀ x, length (f x) = m) → length (l ≫= f) = length l * m.
Proof.
  intros Hf. induction l as [|x l IH]; [done |].
  rewrite bind_cons, length_app, Hf, IH. simpl. lia.
Qed.

(** There are [(high - low)^n] of them. *)
Lemma randint_outcomes_length (low high n : nat) :
  length (randint_outcomes low high n) = (high - low) ^ n.
Proof.
  induction n as [|n IH]; simpl; [done |].
  rewrite (length_bind_const _ _ ((high - low) ^ n)).
  - by rewrite length_seq.
  - intros i. by rewrite length_fmap.
Qed.

Lemma getitems_spec {A} (a : list A) (idxs : list nat) :
  Forall (λ i, i < length a) idxs →
  ∃ l, getitems a idxs = Some l ∧ length l = length idxs ∧
       ∀ j i, idxs !! j = Some i → l !! j = a !! i.
Proof.
  intros Hall. unfold getitems.
  destruct (mapM (λ i, a !! i) idxs) as [l|] eqn:Hm.
  - exists l. split; [done |]. apply mapM_Some_1 in Hm.
    split; [symmetry; by eapply Forall2_length |].
    intros j i Hj.
    destruct (Forall2_lookup_l _ _ _ _ _ Hm Hj) as (y & Hy & Hay).
    by rewrite Hy, Hay.
  - exfalso. assert (His : is_Some (mapM (λ i, a !! i) idxs)); [| by destruct His; congruence].
    apply mapM_is_Some_2. eapply list.Forall_impl; [exact Hall |].
    intros i Hi. simpl. by apply lookup_lt_is_Some_2.
Qed.

(** On a well-formed buffer and in-range indices [take_batch] returns a
    batch whose entry [j] is the slot at the [j]-th index. *)
Lemma take_batch_spec (b : ReplayBuffer) (idxs : list nat) :
  buffer_ok b → Forall (λ i, i < max_size b) idxs →
  ∃ batch, take_batch b idxs = Some batch ∧
    length (b_obs batch) = length idxs ∧ length (b_obs2 batch) = length idxs ∧
    length (b_act batch) = length idxs ∧ length (b_rew batch) = length idxs ∧
    length (b_done batch) = length idxs ∧
    ∀ j i, idxs !! j = Some i → batch_row batch j = slot b i.
Proof.
  intros [H1 H2 H3 H4 H5 _ _ _] Hall. unfold take_batch.
  destruct (getitems_spec (obs_buf b) idxs) as (l1 & -> & Hl1 & Hg1); [by rewrite H1 |].
  destruct (getitems_spec (obs2_buf b) idxs) as (l2 & -> & Hl2 & Hg2); [by rewrite H2 |].
  destruct (getitems_spec (act_buf b) idxs) as (l3 & -> & Hl3 & Hg3); [by rewrite H3 |].
  destruct (getitems_spec (rew_buf b) idxs) as (l4 & -> & Hl4 & Hg4); [by rewrite H4 |].
  destruct (getitems_spec (done_buf b) idxs) as (l5 & -> & Hl5 & Hg5); [by rewrite H5 |].
  simpl. eexists. split; [reflexivity |]. simpl. split_and!; try done.
  intros j i Hj. unfold batch_row, slot. simpl.
  by rewrite (Hg1 j i Hj), (Hg2 j i Hj), (Hg3 j i Hj), (Hg4 j i Hj), (Hg5 j i Hj).
Qed.

(** Every slot below [size] holds a transition that was stored. *)
Lemma slot_written (b0 : ReplayBuffer) (xs : list Transition) (b : ReplayBuffer) (i : nat) :
  buffer_ok b0 → ptr b0 = 0 → size b0 = 0 →
  store_all b0 xs = Some b → i < size b →
  ∃ x, x ∈ xs ∧ slot b i = Some (row_of x).
Proof.
  intros Hok Hp Hs Hb Hi.
  destruct (store_all_spec b0 xs Hok Hp Hs)
    as (b' & Hb' & Hokb & Hmax & Hptr & Hsize & Hin & _).
  rewrite Hb in Hb'. injection Hb' as <-.
  assert (Hc : 0 < max_size b0) by (destruct Hok; lia).
  destruct (decide (length xs ≤ max_size b0)) as [Hsmall | Hbig].
  - destruct (lookup_lt_is_Some_2 xs i) as [x Hx]; [lia |].
    exists x. split; [by eapply list_elem_of_lookup_2 |].
    rewrite <- (Nat.mod_small i (max_size b0)) by lia.
    apply Hin; [done | lia].
  - destruct (store_all_recent b0 xs b Hok Hp Hs Hb) as [Hrec _]; [lia |].
    assert (Hpc : ptr b < max_size b0) by (rewrite Hptr; by apply mod_lt).
    assert (Hk : ∃ k, k < max_size b0 ∧ (ptr b + k) `mod` max_size b0 = i).
    { destruct (decide (ptr b ≤ i)).
      - exists (i - ptr b). split; [lia |].
        replace (ptr b + (i - ptr b)) with i by lia. apply Nat.mod_small. lia.
      - exists (i + max_size b0 - ptr b). split; [lia |].
        replace (ptr b + (i + max_size b0 - ptr b)) with (i + 1 * max_size b0) by lia.
        rewrite Nat.Div0.mod_add. apply Nat.mod_small. lia. }
    destruct Hk as (k & Hk & <-).
    destruct (lookup_lt_is_Some_2 xs (length xs - max_size b0 + k)) as [x Hx]; [lia |].
    exists x. split; [by eapply list_elem_of_lookup_2 | by apply Hrec].
Qed.

Lemma count_outcomes_app {A} (p : A → bool) (d1 d2 : list A) :
  count_outcomes p (d1 ++ d2) = count_outcomes p d1 + count_outcomes p d2.
Proof. induction d1 as [|x d1 IH]; simpl; [done |]. rewrite IH. lia. Qed.

Lemma count_outcomes_fmap {A B} (f : A → B) (p : B → bool) (d : list A) :
  count_outcomes p (f <$> d) = count_outcomes (λ x, p (f x)) d.
Proof. induction d as [|x d IH]; simpl; [done |]. f_equal. exact IH. Qed.

Lemma count_outcomes_ext {A} (p q : A → bool) (d : list A) :
  (∀ x, p x = q x) → count_outcomes p d = count_outcomes q d.
Proof. intros Hpq. induction d as [|x d IH]; simpl; [done |]. by rewrite Hpq, IH. Qed.

Lemma count_outcomes_true {A} (d : list A) : count_outcomes (λ _, true) d = length d.
Proof. induction d as [|x d IH]; simpl; [done |]. by rewrite IH. Qed.

Lemma count_outcomes_false {A} (d : list A) : count_outcomes (λ _, false) d = 0.
Proof. induction d as [|x d IH]; simpl; [done |]. by rewrite IH. Qed.

Lemma count_outcomes_bind_const {A B} (p : B → bool) (f : A → list B)
    (l : list A) (m : nat) :
  (∀ x, count_outcomes p (f x) = m) →
  count_outcomes p (l ≫= f) = length l * m.
Proof.
  intros Hf. induction l as [|x l IH]; [done |].
  rewrite bind_cons, count_outcomes_app, Hf, IH. simpl. lia.
Qed.

Lemma count_outcomes_bind_none {A B} (p : B → bool) (f : A → list B) (l : list A) :
  (∀ x, x ∈ l → count_outcomes p (f x) = 0) →
  count_outcomes p (l ≫= f) = 0.
Proof.
  induction l as [|x l IH]; intros Hf; [done |].
  rewrite bind_cons, count_outcomes_app, Hf, IH; [done | |].
  - intros y Hy. apply Hf. apply elem_of_cons. by right.
  - apply elem_of_cons. by left.
Qed.

Lemma count_outcomes_bind_single {A B} (p : B → bool) (f : A → list B)
    (l : list A) (i : A) :
  NoDup l → i ∈ l → (∀ x, x ≠ i → count_outcomes p (f x) = 0) →
  count_outcomes p (l ≫= f) = count_outcomes p (f i).
Proof.
  intros Hnd Hi Hf. induction Hnd as [|x l Hx Hnd IH]; [by apply elem_of_nil in Hi |].
  rewrite bind_cons, count_outcomes_app.
  apply elem_of_cons in Hi as [<- | Hi].
  - rewrite count_outcomes_bind_none; [lia |].
    intros y Hy. apply Hf. intros ->. done.
  - rewrite IH by done. rewrite Hf; [done |]. intros ->. done.
Qed.

Lemma count_outcomes_NoDup `{EqDecision A} (d : list A) (x : A) :
  NoDup d → x ∈ d → count_outcomes (λ y, bool_decide (y = x)) d = 1.
Proof.
  intros Hnd Hx. induction Hnd as [|y d Hy Hnd IH]; [by apply elem_of_nil in Hx |].
  simpl. apply elem_of_cons in Hx as [<- | Hx].
  - rewrite bool_decide_eq_true_2 by done.
    assert (count_outcomes (λ y, bool_decide (y = x)) d = 0) as ->; [| done].
    clear IH Hnd. induction d as [|z d IH]; [done |]. simpl.
    rewrite bool_decide_eq_false_2.
    + apply IH. intros Hin. apply Hy. apply elem_of_cons. by right.
    + intros ->. apply Hy. apply elem_of_cons. by left.
  - rewrite bool_decide_eq_false_2; [by rewrite IH |]. by intros ->.
Qed.

(** Each position of the draw is uniform: of the [(high - low)^n]
    vectors, [(high - low)^(n - 1)] have a given value at a given
    position. *)
Lemma randint_outcomes_marginal (low high n j i : nat) :
  j < n → low ≤ i < high →
  count_outcomes (λ v, bool_decide (v !! j = Some i)) (randint_outcomes low high n)
  = (high - low) ^ (n - 1).
Proof.
  revert j. induction n as [|n IH]; intros j Hj Hi; [lia |].
  cbn [randint_outcomes]. replace (S n - 1) with n by lia.
  destruct j as [|j].
  - rewrite (count_outcomes_bind_single _ _ _ i).
    + rewrite count_outcomes_fmap. simpl.
      rewrite (count_outcomes_ext _ (λ _, true)).
      * by rewrite count_outcomes_true, randint_outcomes_length.
      * intros v. by rewrite bool_decide_eq_true_2.
    + apply NoDup_seq.
    + apply elem_of_seq. lia.
    + intros x Hx. rewrite count_outcomes_fmap. simpl.
      rewrite (count_outcomes_ext _ (λ _, false)); [apply count_outcomes_false |].
      intros v. apply bool_decide_eq_false_2. by intros [=].
  - rewrite (count_outcomes_bind_const _ _ _ ((high - low) ^ (n - 1))).
    + rewrite length_seq. destruct n as [|n]; [lia |].
      replace (S n - 1) with n by lia. simpl. lia.
    + intros x. rewrite count_outcomes_fmap. simpl. apply IH; lia.
Qed.

Lemma np_random_randint_dist_Some (high : nat) (n : Z) :
  0 < high → (0 ≤ n)%Z →
  np_random_randint_dist high n = Some (randint_outcomes 0 high (Z.to_nat n)).
Proof.
  intros Hh Hn. unfold np_random_randint_dist. rewrite decide_False by lia.
  destruct (decide (n = 0)%Z) as [-> | Hn0]; [done |].
  by rewrite decide_False by lia.
Qed.

Lemma mapM_take_batch (b : ReplayBuffer) (draws : list (list nat)) :
  buffer_ok b → Forall (λ idxs, Forall (λ i, i < max_size b) idxs) draws →
  ∃ outcomes,
    mapM (λ idxs, batch ← take_batch b idxs; Some (batch, idxs, b)) draws
      = Some outcomes ∧
    (λ out : Batch * list nat * ReplayBuffer, out.1.2) <$> outcomes = draws ∧
    ∀ batch idxs b', (batch, idxs, b') ∈ outcomes →
      b' = b ∧ take_batch b idxs = Some batch.
Proof.
  intros Hok Hall. induction Hall as [|idxs draws Hidxs _ IH].
  - exists []. split; [done |]. split; [done |]. by intros ??? ?%elem_of_nil.
  - destruct IH as (outs & Houts & Hmap & Hin).
    destruct (take_batch_spec b idxs Hok Hidxs) as (batch & Hbatch & _).
    exists ((batch, idxs, b) :: outs). split; [| split].
    + cbn [mapM]. rewrite Hbatch. cbn [mbind option_bind].
      by rewrite Houts.
    + rewrite fmap_cons. by rewrite Hmap.
    + intros batch' idxs' b' [[= -> -> ->] | Hin']%elem_of_cons; [done |].
      by apply Hin.
Qed.

(** On a well-formed buffer with a stored transition the distribution
    of [sample_batch] has one outcome per point of the sample space. *)
Lemma sample_batch_dist_spec (b : ReplayBuffer) (k : Z) :
  buffer_ok b → 0 < size b → (0 ≤ k)%Z →
  ∃ outcomes,
    sample_batch_dist b k = Some outcomes ∧
    (λ out : Batch * list nat * ReplayBuffer, out.1.2) <$> outcomes
      = randint_outcomes 0 (size b) (Z.to_nat k) ∧
    ∀ batch idxs b', (batch, idxs, b') ∈ outcomes →
      b' = b ∧ take_batch b idxs = Some batch.
Proof.
  intros Hok Hs Hk. unfold sample_batch_dist.
  rewrite np_random_randint_dist_Some by done. cbn [mbind option_bind].
  apply mapM_take_batch; [done |].
  apply list.Forall_forall. intros idxs [_ Hr]%randint_outcomes_spec.
  eapply list.Forall_impl; [exact Hr |]. simpl. destruct Hok. lia.
Qed.

Section Sampling.
Context {np_random : NumpyRandom} {np_random_spec : NumpyRandomSpec}.

(** A call of [np.random.randint] on a non-empty range with [n >= 0]
    returns a point of the sample space. *)
Lemma randint_in_outcomes (high : nat) (n : Z) (g : Rng) :
  0 < high → (0 ≤ n)%Z →
  ∃ idxs g', np_random_randint high n g = Some (idxs, g') ∧
             idxs ∈ randint_outcomes 0 high (Z.to_nat n).
Proof.
  intros Hh Hn. unfold np_random_randint.
  rewrite decide_False by lia.
  destruct (decide (n = 0)%Z) as [-> | Hn0].
  - exists [], g. split; [done |]. simpl. apply elem_of_cons. by left.
  - rewrite decide_False by lia.
    destruct (random_ints 0 high (Z.to_nat n) g) as [idxs g'] eqn:Hdraw.
    exists idxs, g'. split; [done |].
    pose proof (random_ints_outcome 0 high (Z.to_nat n) g Hh) as Hout.
    by rewrite Hdraw in Hout.
Qed.

(** C8. On a buffer that holds [s > 0] stored transitions,
    [sample_batch k] with [k >= 0] is one call
    [np.random.randint(0, s, size=k)] followed by five reads at the
    indices drawn. With NumPy's draw uniform over [[0, s)^k], the call
    has [s^k] equally likely outcomes; every vector of [k] indices
    below [s], repeated indices included, is the index array of exactly
    one of them, and each value below [s] is at each position in
    [s^(k-1)] of them: the [k] indices are uniform on [[0, s)] and
    independent, drawn with replacement. In every outcome each index is
    below [s] and its slot holds a transition that was stored, the
    buffer is as it was, and each of the five fields has [k] entries,
    entry [j] being the slot at the [j]-th index. The call on a
    generator state returns one of these outcomes, its indices being
    the generator's draw. *)
Theorem sample_batch_uniform_with_replacement (obs_dim : nat) (c : Z)
    (xs : list Transition) (k : Z) (g : Rng) :
  (0 < c)%Z → xs ≠ [] → (0 ≤ k)%Z →
  ∃ b0 b outcomes batch idxs g',
    ReplayBuffer_init obs_dim c = Some b0 ∧ store_all b0 xs = Some b ∧
    0 < size b ∧
    sample_batch_dist b k = Some outcomes ∧
    length outcomes = size b ^ Z.to_nat k ∧
    (∀ v, length v = Z.to_nat k → Forall (λ i, i < size b) v →
       count_outcomes (λ out, bool_decide (out.1.2 = v)) outcomes = 1) ∧
    (∀ j i, j < Z.to_nat k → i < size b →
       count_outcomes (λ out, bool_decide (out.1.2 !! j = Some i)) outcomes
       = size b ^ (Z.to_nat k - 1)) ∧
    (∀ batch' idxs' b', (batch', idxs', b') ∈ outcomes →
       b' = b ∧ length idxs' = Z.to_nat k ∧ Forall (λ i, i < size b) idxs' ∧
       length (b_obs batch') = Z.to_nat k ∧ length (b_obs2 batch') = Z.to_nat k ∧
       length (b_act batch') = Z.to_nat k ∧ length (b_rew batch') = Z.to_nat k ∧
       length (b_done batch') = Z.to_nat k ∧
       (∀ j i, idxs' !! j = Some i →
          ∃ x, x ∈ xs ∧ slot b i = Some (row_of x) ∧
               batch_row batch' j = Some (row_of x))) ∧
    sample_batch b k g = Some (batch, idxs, b, g') ∧
    (k ≠ 0%Z → random_ints 0 (size b) (Z.to_nat k) g = (idxs, g')) ∧
    (batch, idxs, b) ∈ outcomes.
Proof.
  intros Hc Hxs Hk.
  destruct (ReplayBuffer_init_spec obs_dim c Hc)
    as (b0 & Hb0 & Hok0 & Hmax0 & Hp0 & Hs0 & _).
  destruct (store_all_spec b0 xs Hok0 Hp0 Hs0)
    as (b & Hb & Hok & Hmax & Hptr & Hsize & _ & _).
  assert (Hpos : 0 < size b).
  { rewrite Hsize, Hmax0. destruct xs; [done |]. rewrite length_cons. lia. }
  destruct (sample_batch_dist_spec b k Hok Hpos Hk) as (outcomes & Hdist & Hmap & Hout).
  destruct (randint_in_outcomes (size b) k g Hpos Hk) as (idxs & g' & Hdraw & Hin).
  assert (Hrange : ∀ v, v ∈ randint_outcomes 0 (size b) (Z.to_nat k) →
                        length v = Z.to_nat k ∧ Forall (λ i, i < max_size b) v ∧
                        Forall (λ i, i < size b) v).
  { intros v [Hl Hr]%randint_outcomes_spec. split; [done |].
    split; (eapply list.Forall_impl; [exact Hr |]; simpl; destruct Hok; lia). }
  destruct (Hrange idxs Hin) as (Hlen & Hmaxs & Hlt).
  destruct (take_batch_spec b idxs Hok Hmaxs) as (batch & Hbatch & _).
  assert (Hcount : ∀ p : list nat → bool,
            count_outcomes (λ out : Batch * list nat * ReplayBuffer, p out.1.2) outcomes
            = count_outcomes p (randint_outcomes 0 (size b) (Z.to_nat k))).
  { intros p. by rewrite <- Hmap, count_outcomes_fmap. }
  exists b0, b, outcomes, batch, idxs, g'.
  split; [done |]. split; [done |]. split; [done |]. split; [done |].
  split.
  { rewrite <- (Nat.sub_0_r (size b)), <- randint_outcomes_length, <- Hmap.
    by rewrite length_fmap. }
  split.
  { intros v Hv Hall. etrans; [exact (Hcount (λ w, bool_decide (w = v))) |].
    apply count_outcomes_NoDup; [apply randint_outcomes_NoDup |].
    apply randint_outcomes_spec. split; [done |].
    eapply list.Forall_impl; [exact Hall |]. simpl. lia. }
  split.
  { intros j i Hj Hi.
    etrans; [exact (Hcount (λ w, bool_decide (w !! j = Some i))) |].
    rewrite randint_outcomes_marginal by lia. by rewrite Nat.sub_0_r. }
  split.
  { intros batch' idxs' b' Hin'.
    destruct (Hout _ _ _ Hin') as [-> Htake].
    assert (Hidxs' : idxs' ∈ randint_outcomes 0 (size b) (Z.to_nat k)).
    { rewrite <- Hmap. apply list_elem_of_fmap. by exists (batch', idxs', b). }
    destruct (Hrange idxs' Hidxs') as (Hlen' & Hmaxs' & Hlt').
    destruct (take_batch_spec b idxs' Hok Hmaxs')
      as (batch'' & Hbatch'' & L1 & L2 & L3 & L4 & L5 & Hrows).
    rewrite Htake in Hbatch''. injection Hbatch'' as <-.
    split; [done |]. split; [done |]. split; [done |].
    rewrite L1, L2, L3, L4, L5.
    split; [done |]. split; [done |]. split; [done |]. split; [done |].
    split; [done |].
    intros j i Hj.
    assert (Hi : i < size b) by (eapply (proj1 (list.Forall_lookup _ _) Hlt'); eauto).
    destruct (slot_written b0 xs b i Hok0 Hp0 Hs0 Hb Hi) as (x & Hx & Hslot).
    exists x. split; [done |]. split; [done |]. by rewrite (Hrows j i Hj). }
  split; [unfold sample_batch; rewrite Hdraw; simpl; by rewrite Hbatch |].
  split.
  { intros Hk0. unfold np_random_randint in Hdraw.
    rewrite decide_False in Hdraw by lia. rewrite decide_False in Hdraw by done.
    rewrite decide_False in Hdraw by lia. by injection Hdraw as <-. }
  assert (Hex : ∃ out, out ∈ outcomes ∧ out.1.2 = idxs).
  { rewrite <- Hmap in Hin. apply list_elem_of_fmap in Hin as (out & -> & Hin).
    by exists out. }
  destruct Hex as ([[batch' idxs'] b'] & Hin' & Heq). simpl in Heq. subst idxs'.
  destruct (Hout _ _ _ Hin') as [-> Htake].
  rewrite Hbatch in Htake. by injection Htake as <-.
Qed.
End Sampling.

(** The counting generator draws within the range it is asked for. *)
#[export] Instance counting_spec : @NumpyRandomSpec Toy.counting.
Proof.
  intros low high n g Hlh. apply randint_outcomes_spec. simpl.
  split; [by rewrite length_fmap, length_seq |].
  apply Forall_fmap, list.Forall_forall. intros j _. simpl.
  pose proof (mod_lt (g + j) (high - low)). lia.
Qed.

(** ** The start of training *)

Section Start.
Context {gym : Env} {net : QNetwork} {optim : Optimizer} {np_random : NumpyRandom}.

Lemma ReplayBuffer_init_None (d : nat) (c : Z) :
  ReplayBuffer_init d c = None ↔ (c < 0)%Z.
Proof.
  unfold ReplayBuffer_init, np_zeros.
  destruct (decide (c < 0)%Z) as [Hc | Hc]; simpl; [done |].
  split; [done | lia].
Qed.

(** [dqn] checks none of its hyperparameters itself. Its start fails
    exactly when a constructor it calls raises: the
    seeding of the generator, the allocation of the buffer (on a
    negative [replay_size]) or the construction of the optimiser. The
    state it starts the loop from depends on [seed], [replay_size] and
    [q_lr] alone: no value of [gamma], [batch_size] or any other
    hyperparameter makes the start fail or changes what it returns. *)
Theorem start_checks_no_hyperparameter (cfg : Config) :
  (dqn_start cfg = None ↔
     random_seed (seed cfg) = None ∨ (replay_size cfg < 0)%Z ∨
     Adam (q_net_new (seed cfg)) (q_lr cfg) = None) ∧
  (∀ cfg', seed cfg' = seed cfg → replay_size cfg' = replay_size cfg →
           q_lr cfg' = q_lr cfg → dqn_start cfg' = dqn_start cfg).
Proof.
  split.
  - unfold dqn_start.
    destruct (random_seed (seed cfg)) as [g|]; simpl; [| by split; auto].
    destruct (ReplayBuffer_init obs_dim (replay_size cfg)) as [buf|] eqn:Hbuf; simpl.
    + assert (Hc : ¬ (replay_size cfg < 0)%Z).
      { intros Hc. apply (ReplayBuffer_init_None obs_dim) in Hc. congruence. }
      destruct (Adam _ _) as [m|]; simpl.
      * destruct (env_reset env_fn). split; [done |]. intros [? | [? | ?]]; done.
      * split; auto.
    + apply ReplayBuffer_init_None in Hbuf. split; auto.
  - intros cfg' Hs Hr Hl. unfold dqn_start. by rewrite Hs, Hr, Hl.
Qed.
Lemma np_zeros_error_spec {A} (zero : A) (n : Z) :
  np_zeros zero n = None ↔ is_Some (np_zeros_error n).
Proof.
  unfold np_zeros, np_zeros_error. destruct (decide (n < 0)%Z).
  - split; [by eexists | done].
  - split; [done | by intros [? ?]].
Qed.

(** C9. A negative [replay_size] is an invalid configuration that the
    start of training rejects: the allocation of the replay buffer
    raises NumPy's [ValueError], "negative dimensions are not
    allowed", so [dqn] fails before the first environment step and no
    iteration of the loop runs. (The two configurations that the claim
    gives as examples are not of this kind: see
    [start_checks_no_hyperparameter].) *)
Theorem negative_replay_size_rejected_at_start (cfg : Config) :
  (replay_size cfg < 0)%Z →
  dqn_start cfg = None ∧
  (∀ n, dqn_steps cfg n = None) ∧
  dqn cfg = None ∧
  ReplayBuffer_init obs_dim (replay_size cfg) = None ∧
  np_zeros (replicate obs_dim 0%Q) (replay_size cfg) = None ∧
  np_zeros_error (replay_size cfg)
    = Some (ValueError NumpyMessages.negative_dimensions).
Proof.
  intros Hneg.
  assert (Hbuf : ReplayBuffer_init obs_dim (replay_size cfg) = None)
    by (by apply ReplayBuffer_init_None).
  assert (Hstart : dqn_start cfg = None).
  { unfold dqn_start. destruct (random_seed (seed cfg)); [| done].
    simpl. by rewrite Hbuf. }
  split; [done |].
  split; [intros n; unfold dqn_steps; by rewrite Hstart |].
  split; [unfold dqn, dqn_steps; by rewrite Hstart |].
  split; [done |].
  split; [unfold np_zeros; by rewrite decide_True |].
  unfold np_zeros_error. by rewrite decide_True.
Qed.
End Start.

(** ** Runs on the small world *)

Module Runs.
Import Toy.

(** A batch of two transitions, the second terminal, on the toy
    network: the backups are [1 + 1/2 * 1] and [3]; and the same in
    float32 with target rows [0; 1] and [1; 0.5]. *)
Lemma backup_is_reward_at_terminal_for_finite_target_witness :
  let data := {| b_obs := [[1%Q]; [3%Q]]; b_obs2 := [[2%Q]; [4%Q]];
                 b_act := [0%Q; 0%Q]; b_rew := [1%Q; 3%Q];
                 b_done := [0%Q; 1%Q] |} in
  let half := S754_finite false 8388608 (-24) in
  let three := S754_finite false 12582912 (-22) in
  (∃ y, compute_backup Toy.small_config (q_net_new 0) data
          = Some [(1 + (1 # 2) * (1 - 0) * 1)%Q; y] ∧ (y == 3)%Q) ∧
  (∃ backup_f next_q_f y,
     compute_backup_float32 half [[S754_zero false; f32_one]; [f32_one; half]]
       [f32_one; three] [S754_zero false; f32_one] = Some backup_f ∧
     tensor_max_float32 [f32_one; half] = Some next_q_f ∧
     backup_f !! 1 = Some y ∧ f32_same y three).
Proof.
  intros data half three.
  destruct (backup_is_reward_at_terminal_for_finite_target Toy.small_config
              (q_net_new 0) data
              [(1 + (1 # 2) * (1 - 0) * 1)%Q; (3 + (1 # 2) * (1 - 1) * 1)%Q]
              1 3%Q 1%Q [4%Q])
    as ((nq & _ & _ & _ & _ & Hterm) & _ & Hfloat); try reflexivity.
  split.
  - destruct (Hterm ltac:(reflexivity)) as (y & Hy & Hy3).
    exists y. split; [| exact Hy3].
    simpl in Hy. injection Hy as <-. reflexivity.
  - destruct (Hfloat half [[S754_zero false; f32_one]; [f32_one; half]]
                [f32_one; three] [S754_zero false; f32_one]
                [backup_entry_float32 half f32_one (S754_zero false) f32_one; three]
                [f32_one; half] three)
      as (m & y & Hm & _ & Hy & _ & Hfin & _); try reflexivity.
    eexists _, m, y. split; [reflexivity |]. split; [exact Hm |].
    split; [exact Hy |]. apply Hfin.
    vm_compute in Hm. injection Hm as <-. reflexivity.
Defined.

(** C3 (the claim fails here). A terminal transition of reward 3 with
    [gamma = 0.5]: when the target network returns [+inf] for an
    action the backup is NaN, and when it returns finite values the
    backup is 3. *)
Lemma backup_is_nan_at_terminal_for_infinite_target :
  let half := S754_finite false 8388608 (-24) in
  let three := S754_finite false 12582912 (-22) in
  compute_backup_float32 half [[f32_one; S754_infinity false]] [three] [f32_one]
    = Some [S754_nan] ∧
  compute_backup_float32 half [[f32_one; half]] [three] [f32_one]
    = Some [three].
Proof. split; reflexivity. Qed.

(** Two gradient steps on the toy network halve [0; 1] twice, and the
    one Polyak step with [polyak = 1/2] then moves the target from
    [0; 1] to [0; 5/8]. *)
Lemma target_moves_only_by_polyak_witness :
  let batch := {| b_obs := [[1%Q]; [0%Q]]; b_obs2 := [[2%Q]; [1%Q]];
                  b_act := [1%Q; 1%Q]; b_rew := [1%Q; 1%Q];
                  b_done := [0%Q; 0%Q] |} in
  ∃ st st' p',
    dqn_start small_config = Some st ∧
    update small_config batch 2 st = Some st' ∧
    trace st' = [Ev_gradient_step batch; Ev_gradient_step batch; Ev_polyak] ∧
    q_net_targ st' = [p'] ∧ Forall2 Qeq (data p') [0%Q; 5 # 8].
Proof.
  intros batch.
  destruct (dqn_start small_config) as [st|] eqn:Hst;
    [| vm_compute in Hst; discriminate].
  destruct (update small_config batch 2 st) as [st'|] eqn:Hu.
  2: { vm_compute in Hst. injection Hst as <-. vm_compute in Hu. discriminate. }
  destruct (target_moves_only_by_polyak small_config batch 2 st st' Hu)
    as (_ & _ & st1 & l & Hl & _ & Htarg & _ & Htr & _).
  vm_compute in Hst. injection Hst as <-.
  vm_compute in Hl. injection Hl as <- _.
  vm_compute in Htr. vm_compute in Htarg.
  eexists _, st', _. split; [reflexivity |]. split; [exact Hu |].
  split; [exact Htr |]. split; [exact Htarg |].
  repeat constructor.
Defined.


(** The fourth step of the run: four valid transitions, [batch_size]
    2, [(3 + 1) mod 2 = 0], the cursor back at 0, and no update. *)
Lemma update_skipped_when_cursor_small_witness :
  ∃ st3 st4,
    dqn_steps small_config 3 = Some st3 ∧
    loop_body small_config 3 st3 = Some st4 ∧
    size (replay_buffer st4) = 4 ∧
    batch_size small_config = 2%Z ∧
    ((Z.of_nat 3 + 1) `mod` update_interval small_config)%Z = 0%Z ∧
    __len__ (replay_buffer st4) = 0 ∧
    (∃ x, trace st4 = trace st3 ++ [Ev_store x]) ∧
    q_net st4 = q_net st3 ∧ q_net_targ st4 = q_net_targ st3.
Proof.
  destruct (dqn_steps small_config 3) as [st3|] eqn:H3;
    [| vm_compute in H3; discriminate].
  destruct (loop_body small_config 3 st3) as [st4|] eqn:H4.
  2: { vm_compute in H3. injection H3 as <-. vm_compute in H4. discriminate. }
  pose proof (update_skipped_when_cursor_small small_config 3 st3 st4 H4) as Hskip.
  exists st3, st4. split; [reflexivity |]. split; [exact H4 |].
  vm_compute in H3. injection H3 as <-.
  vm_compute in H4. injection H4 as <-.
  split; [reflexivity |]. split; [reflexivity |]. split; [reflexivity |].
  split; [reflexivity |]. apply Hskip. reflexivity.
Defined.

(** C6 (the claim fails here). The corridor terminates, of itself, on
    the second step of the episode; with [max_ep_len = 2] that step is
    stored with the flag 0. *)
Lemma termination_at_horizon_stored_as_not_done :
  ∃ st1 st2 a g1 o2 r env1,
    dqn_steps small_config 1 = Some st1 ∧
    get_action st1 = Some (a, g1) ∧
    env_step (env st1) a = (o2, r, true, env1) ∧
    loop_body small_config 1 st1 = Some st2 ∧
    done_buf (replay_buffer st2) !! ptr (replay_buffer st1) = Some 0%Q.
Proof.
  eexists _, _, _, _, _, _, _.
  split; [vm_compute; reflexivity |].
  split; [vm_compute; reflexivity |].
  split; [vm_compute; reflexivity |].
  split; [vm_compute; reflexivity |].
  reflexivity.
Qed.

(** The first two steps of the run: the first is stored with the flag
    the environment returned, the second with 0. *)
Lemma stored_flag_is_done_before_horizon_witness :
  ∃ st0 st1,
    dqn_start small_config = Some st0 ∧
    loop_body small_config 0 st0 = Some st1 ∧
    done_buf (replay_buffer st1) !! 0 = Some (float_of_bool false).
Proof.
  destruct (dqn_start small_config) as [st0|] eqn:H0;
    [| vm_compute in H0; discriminate].
  destruct (loop_body small_config 0 st0) as [st1|] eqn:H1.
  2: { vm_compute in H0. injection H0 as <-. vm_compute in H1. discriminate. }
  destruct (stored_flag_is_done_before_horizon small_config 0 st0 st1 H1)
    as (a & g1 & o2 & r & d0 & env1 & flag & Ha & Hs & Hbuf & Hflag & _).
  exists st0, st1. split; [reflexivity |]. split; [exact H1 |].
  vm_compute in H0. injection H0 as <-.
  vm_compute in Ha. injection Ha as <- <-.
  vm_compute in Hs. injection Hs as <- <- <- <-.
  destruct flag; [| exact Hbuf].
  destruct (proj1 Hflag eq_refl) as [Hd _]. discriminate Hd.
Defined.

(** A batch of two from a buffer of capacity 2 after three stores:
    four outcomes, the index array [1; 1] in one of them, and the
    value 1 at position 0 in two. *)
Lemma sample_batch_uniform_with_replacement_witness :
  ∃ b0 b outcomes batch idxs g',
    ReplayBuffer_init 1 2 = Some b0 ∧ store_all b0 [x1; x2; x3] = Some b ∧
    sample_batch_dist b 2 = Some outcomes ∧
    length outcomes = 4 ∧
    count_outcomes (λ out, bool_decide (out.1.2 = [1; 1])) outcomes = 1 ∧
    count_outcomes (λ out, bool_decide (out.1.2 !! 0 = Some 1)) outcomes = 2 ∧
    sample_batch b 2 (0%nat : @Rng counting) = Some (batch, idxs, b, g') ∧
    (batch, idxs, b) ∈ outcomes.
Proof.
  destruct (sample_batch_uniform_with_replacement 1 2 [x1; x2; x3] 2
              (0%nat : @Rng counting))
    as (b0 & b & outcomes & batch & idxs & g' & Hb0 & Hb & _ & Hd & Hlen & Hone
        & Hmarg & _ & Hs & _ & Hin); [lia | done | lia |].
  exists b0, b, outcomes, batch, idxs, g'.
  split; [exact Hb0 |]. split; [exact Hb |]. split; [exact Hd |].
  vm_compute in Hb0. injection Hb0 as <-. vm_compute in Hb. injection Hb as <-.
  split; [exact Hlen |].
  split; [apply Hone; [reflexivity | repeat constructor] |].
  split; [apply (Hmarg 0 1); simpl; lia |].
  split; [exact Hs | exact Hin].
Defined.

(** With a discount factor of 2 and batches of 8 from a buffer of 4,
    the examples of an invalid configuration, the start returns a state, and the loop
    runs its [steps_per_epoch * epochs = 8] iterations: eight stores,
    and no update. *)
Lemma invalid_config_enters_loop :
  gamma invalid_config = 2%Q ∧
  (replay_size invalid_config < batch_size invalid_config)%Z ∧
  is_Some (dqn_start invalid_config) ∧
  ∃ st xs, dqn invalid_config = Some st ∧ trace st = Ev_store <$> xs ∧ length xs = 8.
Proof.
  split; [reflexivity |]. split; [reflexivity |].
  split; [vm_compute; eexists; reflexivity |].
  eexists _, [_; _; _; _; _; _; _; _].
  split; [vm_compute; reflexivity |]. split; reflexivity.
Qed.

(** The two toy configurations differ in [gamma] and [batch_size]
    alone, and start from the same state. *)
Lemma start_checks_no_hyperparameter_witness :
  dqn_start invalid_config = dqn_start small_config ∧
  is_Some (dqn_start small_config).
Proof.
  split.
  - apply (start_checks_no_hyperparameter small_config); reflexivity.
  - vm_compute. eexists. reflexivity.
Defined.

(** The toy configuration with [replay_size = -1] is rejected at the
    start. *)
Lemma negative_replay_size_rejected_at_start_witness :
  dqn_start NegativeSize.negative_size_config = None ∧
  dqn NegativeSize.negative_size_config = None.
Proof.
  destruct (negative_replay_size_rejected_at_start NegativeSize.negative_size_config)
    as (Hs & _ & Hd & _); [simpl; lia |].
  split; [exact Hs | exact Hd].
Defined.
End Runs.

(** * More of the trainer *)

(** ** Whole runs of the loop *)

Lemma stored_app (tr1 tr2 : list Event) : stored (tr1 ++ tr2) = stored tr1 ++ stored tr2.
Proof. unfold stored. apply omap_app. Qed.

Lemma count_events_app (p : Event → bool) (tr1 tr2 : list Event) :
  count_events p (tr1 ++ tr2) = count_events p tr1 + count_events p tr2.
Proof. induction tr1 as [|e tr1 IH]; simpl; [done |]. rewrite IH. lia. Qed.

Lemma count_events_replicate (p : Event → bool) (e : Event) (n : nat) :
  count_events p (replicate n e) = if p e then n else 0.
Proof. induction n as [|n IH]; simpl; [by destruct (p e) |]. rewrite IH. by destruct (p e). Qed.

Lemma stored_replicate_gradient_step (n : nat) (batch : Batch) :
  stored (replicate n (Ev_gradient_step batch)) = [].
Proof. induction n as [|n IH]; [done | exact IH]. Qed.

(** What the cycles of an update block add to the counts. *)
Lemma cycles_counts (g : Z) (draws : list (list nat * Batch)) :
  stored (draws ≫= cycle_trace g) = [] ∧
  count_events is_sample (draws ≫= cycle_trace g) = length draws ∧
  count_events is_polyak (draws ≫= cycle_trace g) = length draws ∧
  count_events is_gradient_step (draws ≫= cycle_trace g) = length draws * Z.to_nat g.
Proof.
  induction draws as [|d draws (IH1 & IH2 & IH3 & IH4)]; [done |].
  rewrite bind_cons, stored_app, !count_events_app, IH1, IH2, IH3, IH4.
  unfold cycle_trace, update_trace. simpl.
  rewrite stored_app, !count_events_app, !count_events_replicate. simpl.
  rewrite stored_replicate_gradient_step. simpl. split_and!; [done | lia..].
Qed.

Section WholeRuns.
Context {gym : Env} {net : QNetwork} {optim : Optimizer} {np_random : NumpyRandom}.

Lemma loop_from_S (cfg : Config) (t0 n : nat) (st : State) :
  loop_from cfg t0 (S n) st = loop_body cfg t0 st ≫= loop_from cfg (S t0) n.
Proof. reflexivity. Qed.

Lemma loop_from_snoc (cfg : Config) (t0 n : nat) (st : State) :
  loop_from cfg t0 (S n) st = loop_from cfg t0 n st ≫= loop_body cfg (t0 + n).
Proof.
  revert t0 st; induction n as [|n IH]; intros t0 st.
  - simpl. rewrite Nat.add_0_r. destruct (loop_body cfg t0 st); reflexivity.
  - rewrite (loop_from_S cfg t0 (S n)), (loop_from_S cfg t0 n).
    destruct (loop_body cfg t0 st) as [st1|]; [| reflexivity].
    change (loop_from cfg (S t0) (S n) st1
            = loop_from cfg (S t0) n st1 ≫= loop_body cfg (t0 + S n)).
    rewrite IH. by replace (S t0 + n) with (t0 + S n) by lia.
Qed.

Lemma dqn_steps_snoc (cfg : Config) (n : nat) :
  dqn_steps cfg (S n) = dqn_steps cfg n ≫= loop_body cfg n.
Proof.
  unfold dqn_steps. destruct (dqn_start cfg) as [st|]; [| reflexivity].
  change (loop_from cfg 0 (S n) st = loop_from cfg 0 n st ≫= loop_body cfg n).
  apply (loop_from_snoc cfg 0 n st).
Qed.

Lemma sample_and_update_episode (cfg : Config) (st st' : State) :
  sample_and_update cfg st = Some st' → same_episode st st'.
Proof.
  unfold sample_and_update. intros Hs.
  destruct (sample_batch _ _ _) as [[[[batch idxs] buf] g']|] eqn:Hb; [| done].
  simpl in Hs.
  destruct (sample_and_update_spec cfg st st') as (_ & _ & _ & _ & Hrb & _).
  { unfold sample_and_update. by rewrite Hb. }
  destruct (update_spec _ _ _ _ _ Hs) as (_ & _ & _ & _ & _ & Hw & _).
  destruct Hw as (H1 & H2 & H3 & H4 & H5 & _ & _). simpl in *.
  by repeat split.
Qed.

Lemma update_cycles_episode (cfg : Config) (n : nat) (st st' : State) :
  update_cycles cfg n st = Some st' → same_episode st st'.
Proof.
  revert st; induction n as [|n IH]; intros st Hc; simpl in Hc.
  - injection Hc as <-. by repeat split.
  - destruct (sample_and_update cfg st) as [s1|] eqn:Hs; [| done]. simpl in Hc.
    pose proof (sample_and_update_episode _ _ _ Hs) as H1.
    pose proof (IH _ Hc) as H2. unfold same_episode in *. intuition congruence.
Qed.

Lemma update_handling_episode (cfg : Config) (t : nat) (st st' : State) :
  update_handling cfg t st = Some st' → same_episode st st'.
Proof.
  unfold update_handling. intros Hu.
  destruct (update_due cfg t (replay_buffer st)) as [[|]|]; simpl in Hu; [| | done].
  - by eapply update_cycles_episode.
  - injection Hu as <-. by repeat split.
Qed.

(** The episode side of one iteration. *)
Lemma loop_body_episode (cfg : Config) (t : nat) (st st' : State) :
  loop_body cfg t st = Some st' →
  ∃ a g1 o2 r d0 env1,
    get_action st = Some (a, g1) ∧
    env_step (env st) a = (o2, r, d0, env1) ∧
    exploration_rate st'
      = exploration_schedule (exploration_end cfg) (exploration_decay cfg)
          (exploration_rate st) ∧
    (if stored_done cfg (ep_len st + 1) d0
        || bool_decide ((ep_len st + 1)%Z = max_ep_len cfg)
     then (o st', env st') = env_reset env1 ∧ ep_ret st' = 0%Q ∧ ep_len st' = 0%Z
     else o st' = o2 ∧ env st' = env1 ∧ ep_ret st' = (ep_ret st + r)%Q ∧
          ep_len st' = (ep_len st + 1)%Z).
Proof.
  unfold loop_body. intros Hl.
  destruct (get_action st) as [[a g1]|]; [| done]. simpl in Hl.
  destruct (env_step (env st) a) as [[[o2 r] d0] env1] eqn:Hstep.
  destruct (store_transition _ _) as [buf1|] eqn:Hst; [| done]. simpl in Hl.
  exists a, g1, o2, r, d0, env1. split; [done |]. split; [done |].
  destruct (stored_done cfg (ep_len st + 1) d0
            || bool_decide ((ep_len st + 1)%Z = max_ep_len cfg));
    [destruct (env_reset env1) as [o0 env2] |].
  all: destruct (update_handling_episode _ _ _ _ Hl) as (H1 & H2 & H3 & H4 & H5 & _).
  all: simpl in *; rewrite H1, H2, H3, H4, H5; by repeat split.
Qed.

(** The buffer and the record after the first [n] iterations. *)
Lemma dqn_steps_buffer (cfg : Config) (n : nat) (st : State) :
  dqn_steps cfg n = Some st →
  ∃ b0, ReplayBuffer_init obs_dim (replay_size cfg) = Some b0 ∧
        store_all b0 (stored (trace st)) = Some (replay_buffer st) ∧
        length (stored (trace st)) = n.
Proof.
  revert st; induction n as [|n IH]; intros st Hn.
  - unfold dqn_steps, dqn_start in Hn. simpl in Hn.
    destruct (random_seed _); [| done]. simpl in Hn.
    destruct (ReplayBuffer_init _ _) as [b0|]; [| done]. simpl in Hn.
    destruct (Adam _ _); [| done]. simpl in Hn.
    destruct (env_reset env_fn). injection Hn as <-. by exists b0.
  - rewrite dqn_steps_snoc in Hn.
    destruct (dqn_steps cfg n) as [s|]; [| done]. simpl in Hn.
    destruct (IH s eq_refl) as (b0 & Hb0 & Hall & Hlen).
    destruct (loop_body_spec _ _ _ _ Hn)
      as (a & g1 & o2 & r & d0 & env1 & due & draws & _ & _ & Hst & _ & _ & Htr & _).
    exists b0. split; [done |].
    destruct (cycles_counts (grad_steps cfg) draws) as (Hnil & _).
    rewrite Htr, stored_app. simpl. rewrite Hnil.
    split; [| rewrite length_app; simpl; lia].
    rewrite store_all_app, Hall. simpl. by rewrite Hst.
Qed.

(** Every iteration stores one transition: after [n] iterations the
    buffer is a fresh buffer into which the [n] transitions of the run
    were stored in order, so that it holds [min n replay_size] valid
    transitions and its cursor is at [n mod replay_size]. *)
Theorem one_store_per_step (cfg : Config) (n : nat) (st : State) :
  dqn_steps cfg n = Some st →
  ∃ b0, ReplayBuffer_init obs_dim (replay_size cfg) = Some b0 ∧
        store_all b0 (stored (trace st)) = Some (replay_buffer st) ∧
        length (stored (trace st)) = n ∧
        size (replay_buffer st) = n `min` Z.to_nat (replay_size cfg) ∧
        ptr (replay_buffer st) = n `mod` Z.to_nat (replay_size cfg).
Proof.
  intros Hn.
  destruct (dqn_steps_buffer _ _ _ Hn) as (b0 & Hb0 & Hall & Hlen).
  exists b0. split; [done |]. split; [done |]. split; [done |].
  assert (Hc : ¬ (replay_size cfg < 0)%Z).
  { intros Hc. apply (ReplayBuffer_init_None obs_dim) in Hc. congruence. }
  destruct (decide (replay_size cfg = 0%Z)) as [H0 | H0].
  - rewrite H0 in *. unfold ReplayBuffer_init in Hb0. simpl in Hb0.
    injection Hb0 as <-.
    destruct (stored (trace st)) as [|x xs]; [| discriminate Hall].
    simpl in Hall, Hlen. injection Hall as <-. by subst n.
  - destruct (ReplayBuffer_init_spec obs_dim (replay_size cfg))
      as (b0' & Hb0' & Hok0 & Hmax0 & Hp0 & Hs0 & _); [lia |].
    rewrite Hb0 in Hb0'. injection Hb0' as <-.
    destruct (store_all_spec b0 (stored (trace st)) Hok0 Hp0 Hs0)
      as (b & Hb & _ & _ & Hptr & Hsize & _).
    rewrite Hall in Hb. injection Hb as <-.
    by rewrite Hptr, Hsize, Hmax0, Hlen.
Qed.

(** The exploration rate is stepped once in every iteration, update
    block or not: after [n] iterations it is [n] applications of the
    schedule to the initial rate 1. *)
Theorem exploration_rate_follows_schedule (cfg : Config) (n : nat) (st : State) :
  dqn_steps cfg n = Some st →
  exploration_rate st
  = exploration_rate_after (exploration_end cfg) (exploration_decay cfg) n.
Proof.
  revert st; induction n as [|n IH]; intros st Hn.
  - unfold dqn_steps, dqn_start in Hn. simpl in Hn.
    destruct (random_seed _); [| done]. simpl in Hn.
    destruct (ReplayBuffer_init _ _) as [b0|]; [| done]. simpl in Hn.
    destruct (Adam _ _); [| done]. simpl in Hn.
    destruct (env_reset env_fn). by injection Hn as <-.
  - rewrite dqn_steps_snoc in Hn.
    destruct (dqn_steps cfg n) as [s|]; [| done]. simpl in Hn.
    destruct (loop_body_episode _ _ _ _ Hn) as (a & g1 & o2 & r & d0 & env1 & _ & _ & Hrate & _).
    rewrite Hrate, (IH s eq_refl). reflexivity.
Qed.

(** The length of the running episode is counted from 0, and with a
    positive [max_ep_len] it stays below [max_ep_len]: an episode that
    reaches the horizon is cut there. *)
Theorem episode_length_below_horizon (cfg : Config) (n : nat) (st : State) :
  dqn_steps cfg n = Some st →
  (0 ≤ ep_len st ≤ Z.of_nat n)%Z ∧
  ((0 < max_ep_len cfg)%Z → (ep_len st < max_ep_len cfg)%Z).
Proof.
  revert st; induction n as [|n IH]; intros st Hn.
  - unfold dqn_steps, dqn_start in Hn. simpl in Hn.
    destruct (random_seed _); [| done]. simpl in Hn.
    destruct (ReplayBuffer_init _ _) as [b0|]; [| done]. simpl in Hn.
    destruct (Adam _ _); [| done]. simpl in Hn.
    destruct (env_reset env_fn). injection Hn as <-. simpl. lia.
  - rewrite dqn_steps_snoc in Hn.
    destruct (dqn_steps cfg n) as [s|]; [| done]. simpl in Hn.
    destruct (IH s eq_refl) as [Hlen Hmax].
    destruct (loop_body_episode _ _ _ _ Hn) as (a & g1 & o2 & r & d0 & env1 & _ & _ & _ & Hep).
    destruct (stored_done cfg (ep_len s + 1) d0) eqn:Hd; simpl in Hep.
    + destruct Hep as (_ & _ & ->). lia.
    + destruct (bool_decide ((ep_len s + 1)%Z = max_ep_len cfg)) eqn:He.
      * destruct Hep as (_ & _ & ->). lia.
      * destruct Hep as (_ & _ & _ & ->).
        apply bool_decide_eq_false in He. lia.
Qed.
End WholeRuns.

(** ** How many updates a run makes *)

Lemma div_step_multiple (n u : nat) :
  0 < u → (n + 1) `mod` u = 0 → u * (n `div` u) + u ≤ u * ((n + 1) `div` u).
Proof.
  intros Hu Hm.
  pose proof (Nat.div_mod_eq (n + 1) u) as E1.
  pose proof (Nat.div_mod_eq n u) as E2.
  pose proof (Nat.mod_upper_bound n u ltac:(lia)) as Hr.
  rewrite Hm in E1.
  assert (n `div` u < (n + 1) `div` u) by nia. nia.
Qed.

Section Counting.
Context {gym : Env} {net : QNetwork} {optim : Optimizer} {np_random : NumpyRandom}.

Lemma dqn_steps_counts (cfg : Config) (n : nat) (st : State) :
  dqn_steps cfg n = Some st →
  count_events is_sample (trace st)
    ≤ Z.to_nat (update_interval cfg) * (n `div` Z.to_nat (update_interval cfg)) ∧
  count_events is_polyak (trace st) = count_events is_sample (trace st) ∧
  count_events is_gradient_step (trace st)
    = count_events is_sample (trace st) * Z.to_nat (grad_steps cfg).
Proof.
  revert st; induction n as [|n IH]; intros st Hn.
  - unfold dqn_steps, dqn_start in Hn. simpl in Hn.
    destruct (random_seed _); [| done]. simpl in Hn.
    destruct (ReplayBuffer_init _ _) as [b0|]; [| done]. simpl in Hn.
    destruct (Adam _ _); [| done]. simpl in Hn.
    destruct (env_reset env_fn). injection Hn as <-. simpl. lia.
  - rewrite dqn_steps_snoc in Hn.
    destruct (dqn_steps cfg n) as [s|]; [| done]. simpl in Hn.
    destruct (IH s eq_refl) as (Hs & Hp & Hg).
    destruct (loop_body_spec _ _ _ _ Hn)
      as (a & g1 & o2 & r & d0 & env1 & due & draws & _ & _ & _ & Hdue & Hlen & Htr & _).
    destruct (cycles_counts (grad_steps cfg) draws) as (_ & C1 & C2 & C3).
    rewrite Htr, !count_events_app. simpl. rewrite C1, C2, C3, Hp, Hg.
    split; [| lia].
    set (u := Z.to_nat (update_interval cfg)) in *.
    destruct due.
    + destruct (update_due_true _ _ _ Hdue) as (_ & Hne & Hmod).
      rewrite Hlen. destruct (decide (u = 0)) as [-> | Hu]; [simpl; lia |].
      assert (Hm : (n + 1) `mod` u = 0).
      { apply Nat2Z.inj. rewrite Nat2Z.inj_mod, Nat2Z.inj_add. unfold u.
        rewrite Z2Nat.id by lia. exact Hmod. }
      pose proof (div_step_multiple n u ltac:(lia) Hm).
      replace (S n) with (n + 1) by lia. lia.
    + rewrite Hlen.
      assert (n `div` u ≤ S n `div` u) by (apply Nat.Div0.div_le_mono; lia).
      nia.
Qed.

(** A run never makes more sample-and-update cycles than it has taken
    environment steps; every cycle has exactly one Polyak step and
    [grad_steps] gradient steps. *)
Theorem updates_never_outnumber_steps (cfg : Config) (n : nat) (st : State) :
  dqn_steps cfg n = Some st →
  count_events is_sample (trace st) ≤ n ∧
  count_events is_polyak (trace st) = count_events is_sample (trace st) ∧
  count_events is_gradient_step (trace st)
    = count_events is_sample (trace st) * Z.to_nat (grad_steps cfg).
Proof.
  intros Hn. destruct (dqn_steps_counts _ _ _ Hn) as (Hs & Hp & Hg).
  split; [| done].
  pose proof (Nat.Div0.mul_div_le n (Z.to_nat (update_interval cfg))). lia.
Qed.

(** With [update_interval <= 0] no update ever runs: an iteration that
    returns has only stored its transition, and with
    [update_interval = 0] it returns only while the cursor is below
    [batch_size]; the modulus raises as soon as it is evaluated. *)
Theorem no_update_with_nonpositive_interval (cfg : Config) (t : nat) (st st' : State) :
  (update_interval cfg ≤ 0)%Z →
  loop_body cfg t st = Some st' →
  (∃ x, trace st' = trace st ++ [Ev_store x]) ∧
  (update_interval cfg = 0%Z →
     (Z.of_nat (ptr (replay_buffer st')) < batch_size cfg)%Z).
Proof.
  intros Hui Hl.
  destruct (loop_body_spec _ _ _ _ Hl)
    as (a & g1 & o2 & r & d0 & env1 & due & draws & _ & _ & _ & Hdue & Hlen & Htr & _).
  split.
  - assert (Hd : draws = []).
    { destruct draws; [done |]. destruct due; simpl in Hlen; lia. }
    subst draws. by eexists.
  - intros H0. unfold update_due, __len__ in Hdue.
    destruct (decide (batch_size cfg ≤ Z.of_nat (ptr (replay_buffer st')))%Z); [| lia].
    by rewrite decide_True in Hdue.
Qed.

Lemma gradient_loop_exploration_start (cfg : Config) (v : Q) (batch : Batch)
    (n : nat) (st : State) (last : option (Q * list Q)) :
  gradient_loop (set_exploration_start cfg v) batch n st last
  = gradient_loop cfg batch n st last.
Proof.
  revert st last; induction n as [|n IH]; intros st last; [done |].
  simpl. change (gradient_step (set_exploration_start cfg v) batch st)
    with (gradient_step cfg batch st).
  destruct (gradient_step cfg batch st) as [[s l]|]; [apply IH | done].
Qed.

Lemma update_cycles_exploration_start (cfg : Config) (v : Q) (n : nat) (st : State) :
  update_cycles (set_exploration_start cfg v) n st = update_cycles cfg n st.
Proof.
  revert st; induction n as [|n IH]; intros st; [done |].
  simpl.
  assert (Hs : sample_and_update (set_exploration_start cfg v) st
               = sample_and_update cfg st).
  { unfold sample_and_update, update. simpl.
    destruct (sample_batch _ _ _) as [[[[b i] buf] g']|]; [| done]. simpl.
    by rewrite gradient_loop_exploration_start. }
  rewrite Hs. destruct (sample_and_update cfg st); [apply IH | done].
Qed.

Lemma update_handling_exploration_start (cfg : Config) (v : Q) (t : nat) (st : State) :
  update_handling (set_exploration_start cfg v) t st = update_handling cfg t st.
Proof.
  unfold update_handling.
  change (update_due (set_exploration_start cfg v) t (replay_buffer st))
    with (update_due cfg t (replay_buffer st)).
  destruct (update_due cfg t (replay_buffer st)) as [[|]|]; simpl; try done.
  apply update_cycles_exploration_start.
Qed.

Lemma loop_body_exploration_start (cfg : Config) (v : Q) (t : nat) (st : State) :
  loop_body (set_exploration_start cfg v) t st = loop_body cfg t st.
Proof.
  unfold loop_body. destruct (get_action st) as [[a g1]|]; [| done]. simpl.
  destruct (env_step (env st) a) as [[[o2 r] d0] env1].
  change (stored_done (set_exploration_start cfg v)) with (stored_done cfg).
  destruct (store_transition _ _) as [buf1|]; [| done]. simpl.
  destruct (stored_done cfg (ep_len st + 1) d0
            || bool_decide ((ep_len st + 1)%Z = max_ep_len cfg));
    [destruct (env_reset env1) |].
  all: apply update_handling_exploration_start.
Qed.

(** The keyword argument [exploration_start] is never read: the rate
    starts at 1 whatever its value, and a run with another value is the
    same run. *)
Theorem exploration_start_is_ignored (cfg : Config) (v : Q) (n : nat) :
  dqn_steps (set_exploration_start cfg v) n = dqn_steps cfg n ∧
  (∀ st, dqn_start (set_exploration_start cfg v) = Some st →
         exploration_rate st = 1%Q).
Proof.
  split.
  - unfold dqn_steps.
    change (dqn_start (set_exploration_start cfg v)) with (dqn_start cfg).
    destruct (dqn_start cfg) as [st|]; [| done]. simpl.
    generalize 0 as t0. revert st.
    induction n as [|n IH]; intros st t0; [done |].
    simpl. rewrite loop_body_exploration_start.
    destruct (loop_body cfg t0 st); [apply IH | done].
  - intros st Hst. unfold dqn_start in Hst. simpl in Hst.
    destruct (random_seed _); [| done]. simpl in Hst.
    destruct (ReplayBuffer_init _ _) as [b0|]; [| done]. simpl in Hst.
    destruct (Adam _ _); [| done]. simpl in Hst.
    destruct (env_reset env_fn). by injection Hst as <-.
Qed.
End Counting.

(** ** Edges of the replay buffer *)

(** A buffer cannot be built with a negative capacity, and one built
    with capacity 0 raises on its first [store]. With any positive
    capacity the first [store] of a transition whose observations have
    [obs_dim] entries succeeds: it writes the transition to slot 0, and
    the two observation arrays keep rows of [obs_dim] entries. *)
Theorem store_needs_capacity (d : nat) (c : Z) (x : Transition) :
  length (tr_obs x) = d → length (tr_next_obs x) = d →
  (ReplayBuffer_init d c = None ↔ (c < 0)%Z) ∧
  (∀ b0, ReplayBuffer_init d c = Some b0 →
     (store_transition b0 x = None ↔ c = 0%Z) ∧
     (∀ b1, store_transition b0 x = Some b1 →
        slot b1 0 = Some (row_of x) ∧
        Forall (λ ob, length ob = d) (obs_buf b1) ∧
        Forall (λ ob, length ob = d) (obs2_buf b1))).
Proof.
  intros Hobs Hobs2. split; [apply ReplayBuffer_init_None |].
  intros b0 Hb0.
  assert (Hc : ¬ (c < 0)%Z).
  { intros Hc. apply (ReplayBuffer_init_None d) in Hc. congruence. }
  assert (Hrows : Forall (λ ob, length ob = d) (obs_buf b0) ∧
                  Forall (λ ob, length ob = d) (obs2_buf b0) ∧ ptr b0 = 0).
  { unfold ReplayBuffer_init, np_zeros in Hb0.
    rewrite !decide_False in Hb0 by done. simpl in Hb0. injection Hb0 as <-. simpl.
    split; [| split; [| done]];
      apply Forall_replicate, length_replicate. }
  destruct Hrows as (Hr1 & Hr2 & Hp0).
  split.
  - destruct (decide (c = 0%Z)) as [-> | Hne].
    + unfold ReplayBuffer_init in Hb0. simpl in Hb0. injection Hb0 as <-. done.
    + destruct (ReplayBuffer_init_spec d c) as (b & Hb & Hok & _); [lia |].
      rewrite Hb0 in Hb. injection Hb as <-.
      destruct (store_spec b0 x Hok) as (b' & Hb' & _). rewrite Hb'. done.
  - intros b1 Hb1. destruct (store_written b0 b1 x Hb1) as (Hslot & _).
    rewrite Hp0 in Hslot. split; [done |].
    unfold store_transition, store, setitem in Hb1.
    repeat case_decide; simpl in Hb1; try done. injection Hb1 as <-. simpl.
    split; apply Forall_insert; done.
Qed.

Section EmptySampling.
Context {np_random : NumpyRandom}.

(** [sample_batch] raises on a buffer into which nothing was stored,
    for every batch size other than 0, and on every buffer for a
    negative batch size. *)
Theorem sample_batch_raises (d : nat) (c k : Z) (g : Rng) (b0 : ReplayBuffer) :
  ReplayBuffer_init d c = Some b0 → k ≠ 0%Z →
  sample_batch b0 k g = None ∧
  (∀ b, (k < 0)%Z → sample_batch b k g = None).
Proof.
  intros Hb0 Hk.
  assert (Hs : size b0 = 0).
  { unfold ReplayBuffer_init, np_zeros in Hb0.
    destruct (decide (c < 0)%Z); simpl in Hb0; [done |].
    by injection Hb0 as <-. }
  split.
  - unfold sample_batch, np_random_randint. rewrite Hs.
    destruct (decide (k < 0)%Z); [done |].
    rewrite decide_False by done. by rewrite decide_True.
  - intros b Hneg. unfold sample_batch, np_random_randint.
    by rewrite decide_True.
Qed.
End EmptySampling.

(** ** Target synchronisation, repeated *)

(** With the online parameters held fixed, each Polyak block shrinks
    the distance of every target entry to its online entry by the
    factor [polyak]: after [n] blocks the entry is at
    [polyak^n * (x_targ - x)] from the online entry [x]. *)
Theorem polyak_repeat_contracts (polyak : Q) (online targ : Params) (n i j : nat)
    (p p_targ : Tensor) (x x_targ : Q) :
  online !! i = Some p → targ !! i = Some p_targ →
  data p !! j = Some x → data p_targ !! j = Some x_targ →
  ∃ p' y, polyak_repeat polyak online targ n !! i = Some p' ∧
          data p' !! j = Some y ∧
          (y - x == decay_power polyak n * (x_targ - x))%Q.
Proof.
  intros Hp Ht Hx Hxt. induction n as [|n (p' & y & Hp' & Hy & Heq)].
  - exists p_targ, x_targ. split; [done |]. split; [done |]. simpl. ring.
  - destruct (polyak_average_lookup polyak online (polyak_repeat polyak online targ n)
                i j p p' x y Hp Hp' Hx Hy) as (p'' & Hp'' & Hy'').
    exists p'', (y * polyak + (1 - polyak) * x)%Q.
    split; [exact Hp'' |]. split; [exact Hy'' |].
    simpl.
    assert (Hid : (y * polyak + (1 - polyak) * x - x == (y - x) * polyak)%Q) by ring.
    rewrite Hid, Heq. ring.
Qed.

(** ** The loss *)

Lemma long_inject_Z (z : Z) : long (inject_Z z) = z.
Proof. unfold long, inject_Z. simpl. apply Z.quot_1_r. Qed.

Lemma gather_is_Some_rows (rows : list (list Q)) (acts : list Q) :
  length rows = length acts →
  (is_Some (gather rows acts) ↔
   Forall2 (λ row a, (0 ≤ long a < Z.of_nat (length row))%Z) rows acts).
Proof.
  unfold gather. rewrite mapM_is_Some.
  revert acts. induction rows as [|row rows IH]; intros [|a acts] Hlen;
    simpl in *; try done.
  rewrite list.Forall_cons, IH by lia.
  assert (Hhead : is_Some (if decide (long a < 0)%Z then None
                             else row !! Z.to_nat (long a))
                    ↔ (0 ≤ long a < Z.of_nat (length row))%Z).
  { destruct (decide (long a < 0)%Z) as [Hneg | Hpos].
    - split; [by intros [? ?] | lia].
    - rewrite lookup_lt_is_Some. lia. }
  simpl. rewrite Hhead. split.
  - intros [? ?]. by constructor.
  - intros H. by inversion H.
Qed.

Lemma gather_lookup (rows : list (list Q)) (acts cur_q : list Q) (i : nat)
    (row : list Q) (a : Q) :
  gather rows acts = Some cur_q → rows !! i = Some row → acts !! i = Some a →
  cur_q !! i = row !! Z.to_nat (long a) ∧ is_Some (cur_q !! i).
Proof.
  intros Hg Hr Ha. unfold gather in Hg. apply mapM_Some_1 in Hg.
  assert (Hz : zip rows acts !! i = Some (row, a)).
  { apply lookup_zip_with_Some. by exists row, a. }
  destruct (Forall2_lookup_l _ _ _ _ _ Hg Hz) as (y & Hy & Hf). simpl in Hf.
  destruct (decide (long a < 0)%Z); [done |]. rewrite Hy, Hf. by split; [| eexists].
Qed.

Section Loss.
Context {net : QNetwork}.


Lemma argmax_from_spec (xs pre : list Q) (best : Q) (best_i : nat) :
  pre !! best_i = Some best →
  (∀ v, v ∈ pre → (v <= best)%Q) →
  (∀ j v, j < best_i → pre !! j = Some v → (v < best)%Q) →
  ∃ m, (pre ++ xs) !! argmax_from best best_i (length pre) xs = Some m ∧
       (∀ v, v ∈ pre ++ xs → (v <= m)%Q) ∧
       (∀ j v, j < argmax_from best best_i (length pre) xs →
               (pre ++ xs) !! j = Some v → (v < m)%Q).
Proof.
  revert pre best best_i; induction xs as [|x xs IH]; intros pre best best_i Hb Hle Hlt.
  - simpl. rewrite app_nil_r. by exists best.
  - simpl. replace (pre ++ x :: xs) with ((pre ++ [x]) ++ xs) by (by rewrite <- app_assoc).
    replace (S (length pre)) with (length (pre ++ [x])) by (rewrite length_app; simpl; lia).
    destruct (Qlt_le_dec best x) as [Hbx | Hxb].
    + apply IH.
      * by rewrite lookup_app_r, Nat.sub_diag.
      * intros v [Hv | ->%list_elem_of_singleton]%elem_of_app; [| apply Qle_refl].
        apply Qlt_le_weak. eapply Qle_lt_trans; [by apply Hle | done].
      * intros j v Hj Hv. rewrite lookup_app_l in Hv by done.
        eapply Qle_lt_trans; [| exact Hbx]. apply Hle.
        by eapply list_elem_of_lookup_2.
    + apply IH.
      * rewrite lookup_app_l; [done | by eapply lookup_lt_Some].
      * intros v [Hv | ->%list_elem_of_singleton]%elem_of_app; [by apply Hle | done].
      * intros j v Hj Hv. apply (Hlt j v Hj).
        rewrite lookup_app_l in Hv; [done |].
        apply lookup_lt_Some in Hb. lia.
Qed.

(** The greedy action of [q_net.act] is the first index at which the
    action values are largest: it is an index of the row, no value is
    above the value there and every value before it is strictly below.
    The call raises exactly when the network returns no action value. *)
Theorem greedy_action_is_first_maximum (online : Params) (ob : Obs) :
  (act online ob = None ↔ q_forward online ob = []) ∧
  (∀ a, act online ob = Some a →
     ∃ m, (0 ≤ a < Z.of_nat (length (q_forward online ob)))%Z ∧
          q_forward online ob !! Z.to_nat a = Some m ∧
          (∀ v, v ∈ q_forward online ob → (v <= m)%Q) ∧
          (∀ j v, j < Z.to_nat a → q_forward online ob !! j = Some v → (v < m)%Q)).
Proof.
  unfold act, argmax. destruct (q_forward online ob) as [|x xs]; [done |].
  split; [done |]. intros a [= <-].
  destruct (argmax_from_spec xs [x] x 0) as (m & Hm & Hle & Hlt); try done.
  - intros v ->%list_elem_of_singleton. apply Qle_refl.
  - intros j v Hj. lia.
  - simpl in Hm, Hle, Hlt. exists m. rewrite Nat2Z.id.
    split; [| done]. apply lookup_lt_Some in Hm. simpl in Hm.
    rewrite length_cons. lia.
Qed.
End Loss.

(** ** Evaluation *)

Section TestAgent.
Context {gym : Env} {net : QNetwork}.

Lemma test_episode_returns (cfg : Config) (online : Params) (fuel : nat)
    (test_env : EnvState) (ob : Obs) (d : bool) (ret : Q) (len : Z) :
  (∀ ob', q_forward online ob' ≠ []) →
  (0 ≤ len ≤ max_ep_len cfg)%Z → Z.to_nat (max_ep_len cfg - len) ≤ fuel →
  ∃ test_env' ret' len',
    test_episode cfg online fuel test_env ob d ret len
      = Returned (test_env', ret', len') ∧
    (len ≤ len' ≤ max_ep_len cfg)%Z.
Proof.
  intros Hne. revert test_env ob d ret len.
  induction fuel as [|fuel IH]; intros test_env ob d ret len Hlen Hfuel.
  - assert (len = max_ep_len cfg) as -> by lia. simpl.
    rewrite bool_decide_eq_true_2 by done. rewrite orb_true_r.
    eexists _, _, _. split; [done | lia].
  - simpl. destruct (d || bool_decide (len = max_ep_len cfg)) eqn:Hstop.
    + eexists _, _, _. split; [done | lia].
    + apply orb_false_iff in Hstop as [_ Hlt]. apply bool_decide_eq_false in Hlt.
      unfold act, argmax. specialize (Hne ob).
      destruct (q_forward online ob) as [|x xs]; [done |].
      destruct (env_step test_env _) as [[[o2 r] d2] test_env'].
      destruct (IH test_env' o2 d2 (ret + r)%Q (len + 1)%Z) as (e & r' & l' & Hr & Hl);
        [lia | lia |].
      exists e, r', l'. split; [done | lia].
Qed.

(** With [max_ep_len >= 0] and a network that returns at least one
    action value, [test_agent] returns: every test episode ends within
    [max_ep_len] steps, [num_test_episodes] pairs are logged (none when
    it is negative), and every logged length is between 0 and
    [max_ep_len]. *)
Theorem test_episodes_end_by_horizon (cfg : Config) (num_test_episodes : Z)
    (online : Params) (test_env : EnvState) :
  (0 ≤ max_ep_len cfg)%Z → (∀ ob, q_forward online ob ≠ []) →
  ∃ test_env' logged,
    test_agent cfg num_test_episodes online (Z.to_nat (max_ep_len cfg)) test_env
      = Returned (test_env', logged) ∧
    length logged = Z.to_nat num_test_episodes ∧
    Forall (λ l : Q * Z, (0 ≤ l.2 ≤ max_ep_len cfg)%Z) logged.
Proof.
  intros Hmax Hne. unfold test_agent.
  assert (Hgen : ∀ n tenv logged0,
            Forall (λ l : Q * Z, (0 ≤ l.2 ≤ max_ep_len cfg)%Z) logged0 →
            ∃ test_env' logged,
              test_episodes cfg online (Z.to_nat (max_ep_len cfg)) n tenv logged0
                = Returned (test_env', logged) ∧
              length logged = length logged0 + n ∧
              Forall (λ l : Q * Z, (0 ≤ l.2 ≤ max_ep_len cfg)%Z) logged).
  { induction n as [|n IH]; intros tenv logged0 Hall; simpl.
    - exists tenv, logged0. split; [done |]. split; [lia | done].
    - destruct (env_reset tenv) as [ob tenv1].
      destruct (test_episode_returns cfg online (Z.to_nat (max_ep_len cfg))
                  tenv1 ob false 0%Q 0%Z Hne) as (e & r & l & -> & Hl); [lia | lia |].
      destruct (IH e (logged0 ++ [(r, l)])) as (e' & logged & Hr & Hlen & Hall').
      { apply Forall_app. split; [done |]. by constructor. }
      exists e', logged. split; [done |]. split; [| done].
      rewrite Hlen, length_app. simpl. lia. }
  destruct (Hgen (Z.to_nat num_test_episodes) test_env []) as (e & logged & Hr & Hlen & Hall);
    [constructor |].
  by exists e, logged.
Qed.

Lemma test_episode_runs_on (cfg : Config) (online : Params) (fuel : nat)
    (test_env : EnvState) (ob : Obs) (ret : Q) (len : Z) :
  (max_ep_len cfg < 0)%Z → (∀ ob', q_forward online ob' ≠ []) →
  (∀ s a, (env_step s a).1.2 = false) → (0 ≤ len)%Z →
  test_episode cfg online fuel test_env ob false ret len = Running.
Proof.
  intros Hmax Hne Hnever. revert test_env ob ret len.
  induction fuel as [|fuel IH]; intros test_env ob ret len Hlen; simpl.
  - by rewrite bool_decide_eq_false_2 by lia.
  - rewrite bool_decide_eq_false_2 by lia.
    unfold act, argmax. specialize (Hne ob).
    destruct (q_forward online ob) as [|x xs]; [done |].
    specialize (Hnever test_env (Z.of_nat (argmax_from x 0 1 xs))).
    destruct (env_step test_env _) as [[[o2 r] d2] test_env']. simpl in Hnever.
    subst d2. apply IH. lia.
Qed.

(** With a negative [max_ep_len] the horizon test of the evaluation
    loop never holds: in an environment that never reports [done], a
    call of [test_agent] for at least one episode is still in its first
    episode after any number of steps. *)
Theorem test_agent_without_horizon_runs_on (cfg : Config) (num_test_episodes : Z)
    (online : Params) (fuel : nat) (test_env : EnvState) :
  (max_ep_len cfg < 0)%Z → (0 < num_test_episodes)%Z →
  (∀ ob, q_forward online ob ≠ []) →
  (∀ s a, (env_step s a).1.2 = false) →
  test_agent cfg num_test_episodes online fuel test_env = Running.
Proof.
  intros Hmax Hk Hne Hnever. unfold test_agent.
  destruct (Z.to_nat num_test_episodes) as [|n] eqn:Hn; [lia |]. simpl.
  destruct (env_reset test_env) as [ob tenv1].
  by rewrite test_episode_runs_on.
Qed.
End TestAgent.

(** ** The end of an epoch *)

(** With [steps_per_epoch > 0] and [save_freq] other than 0, during a
    run of [steps_per_epoch * epochs] steps: step [t] ends an epoch
    exactly when [steps_per_epoch] divides [t + 1]; the epoch number is
    then between 1 and [epochs]; the model is saved when [save_freq]
    divides the epoch number and at the last epoch in any case; and the
    [TotalEnvInteracts] that is logged is [t], one less than the number
    of steps taken. *)
Theorem epoch_ends_on_multiples (cfg : Config) (save_freq : Z) (t : nat) :
  (0 < steps_per_epoch cfg)%Z → save_freq ≠ 0%Z →
  (Z.of_nat t < steps_per_epoch cfg * epochs cfg)%Z →
  ∃ r, end_of_epoch cfg save_freq t = Some r ∧
       (r = None ↔ ((Z.of_nat t + 1) `mod` steps_per_epoch cfg)%Z ≠ 0%Z) ∧
       ∀ e, r = Some e →
         (1 ≤ epoch e ≤ epochs cfg)%Z ∧
         (epoch e * steps_per_epoch cfg = Z.of_nat t + 1)%Z ∧
         total_env_interacts e = (epoch e * steps_per_epoch cfg - 1)%Z ∧
         (model_saved e = true ↔
            (epoch e `mod` save_freq)%Z = 0%Z ∨ epoch e = epochs cfg) ∧
         (Z.of_nat t + 1 = steps_per_epoch cfg * epochs cfg → model_saved e = true)%Z.
Proof.
  intros Hsp Hsf Ht. unfold end_of_epoch.
  rewrite decide_False by lia.
  destruct (decide (((Z.of_nat t + 1) `mod` steps_per_epoch cfg)%Z = 0%Z)) as [Hm | Hm].
  - rewrite decide_False by done. eexists. split; [reflexivity |].
    split; [split; [done | by intros ?] |].
    intros e [= <-]. simpl.
    pose proof (Z_div_mod_eq_full (Z.of_nat t + 1) (steps_per_epoch cfg)) as Hdiv.
    rewrite Hm in Hdiv.
    set (q := ((Z.of_nat t + 1) `div` steps_per_epoch cfg)%Z) in *.
    assert (Hq : (1 ≤ q ≤ epochs cfg)%Z) by nia.
    split; [done |]. split; [lia |]. split; [lia |]. split.
    + rewrite orb_true_iff, !bool_decide_eq_true. done.
    + intros Hlast. rewrite orb_true_iff, !bool_decide_eq_true. right. nia.
  - exists None. split; [done |]. split; [done | by intros e [=]].
Qed.

(** With [save_freq = 0] the run raises at the end of its first epoch,
    where [epoch % save_freq] is evaluated, and not before. *)
Theorem zero_save_freq_raises_at_first_epoch (cfg : Config) (t : nat) :
  (0 < steps_per_epoch cfg)%Z →
  (end_of_epoch cfg 0 t = None ↔
   ((Z.of_nat t + 1) `mod` steps_per_epoch cfg)%Z = 0%Z) ∧
  ((Z.of_nat t + 1 < steps_per_epoch cfg)%Z → end_of_epoch cfg 0 t = Some None) ∧
  ((Z.of_nat t + 1 = steps_per_epoch cfg)%Z → end_of_epoch cfg 0 t = None).
Proof.
  intros Hsp. unfold end_of_epoch. rewrite decide_False by lia.
  split_and!.
  - destruct (decide (((Z.of_nat t + 1) `mod` steps_per_epoch cfg)%Z = 0%Z)); [done |].
    split; [done | by intros ?].
  - intros Hlt. rewrite decide_False; [done |]. rewrite Z.mod_small by lia. lia.
  - intros Heq. rewrite decide_True; [done |]. rewrite Heq. apply Z.mod_same. lia.
Qed.

Lemma mlp_cons (s0 s1 : nat) (rest : list nat) (activation output_activation : Q → Q) :
  mlp (s0 :: s1 :: rest) activation output_activation =
  Linear s0 s1
  :: Activation (match rest with [] => output_activation | _ => activation end)
  :: mlp (s1 :: rest) activation output_activation.
Proof.
  unfold mlp. cbn [length]. rewrite !Nat.sub_succ, !Nat.sub_0_r.
  cbn [seq]. rewrite <- fmap_S_seq. cbn [mbind list_bind app].
  assert (Hact : (if decide (0 < length rest) then activation else output_activation)
                 = match rest with [] => output_activation | _ => activation end).
  { destruct rest as [|r rest]; [done |].
    by rewrite decide_True by (simpl; lia). }
  rewrite Hact. simpl. do 2 f_equal.
  generalize (length rest). intros n.
  induction (seq 0 n) as [|j js IH]; [done |].
  cbn [fmap list_fmap mbind list_bind app].
  rewrite IH. simpl. do 3 f_equal.
  destruct (decide (S j < n)), (decide (j < n - 1)); (done || lia).
Qed.

Lemma mlp_short (sizes : list nat) (activation output_activation : Q → Q) :
  length sizes ≤ 1 → mlp sizes activation output_activation = [].
Proof.
  intros Hlen. unfold mlp. by replace (length sizes - 1) with 0 by lia.
Qed.

(** [count_vars] of an [mlp]: every pair of consecutive sizes [(m, n)]
    contributes the [n * m] weights and the [n] biases of its linear
    layer, whatever the activations; a list of fewer than two sizes
    gives a network with no variable. *)
Theorem count_vars_mlp (sizes : list nat) (activation output_activation : Q → Q) :
  count_vars (mlp sizes activation output_activation) = layer_vars sizes.
Proof.
  induction sizes as [|s0 [|s1 rest] IH]; [done | done |].
  rewrite mlp_cons. change (layer_vars (s0 :: s1 :: rest))
    with (s1 * (s0 + 1) + layer_vars (s1 :: rest)).
  rewrite <- IH. unfold count_vars, parameter_shapes.
  cbn [mbind list_bind app fmap list_fmap foldr]. lia.
Qed.

Lemma linear_forward_length (i o : nat) (weight bias x y : list Q) :
  linear_forward i o weight bias x = Some y → length y = o.
Proof.
  unfold linear_forward. case_decide; [| done]. intros [= <-].
  by rewrite length_fmap, length_seq.
Qed.

Lemma last_default (xs : list nat) (d d' : nat) :
  xs ≠ [] → List.last xs d = List.last xs d'.
Proof.
  induction xs as [|x [|x' xs] IH]; [done | done |]. intros _.
  change (List.last (x' :: xs) d = List.last (x' :: xs) d'). by apply IH.
Qed.

Lemma sequential_forward_mlp (s0 : nat) (rest : list nat)
    (activation output_activation : Q → Q) (params : Params) (x : list Q) :
  length params = 2 * length rest →
  length x = s0 →
  ∃ y, sequential_forward (mlp (s0 :: rest) activation output_activation) params x
       = Some y ∧ length y = List.last rest s0.
Proof.
  revert s0 params x. induction rest as [|s1 rest IH]; intros s0 params x Hp Hx.
  - exists x. by rewrite mlp_short by (simpl; lia).
  - rewrite mlp_cons. destruct params as [|w [|b params]]; simpl in Hp; try lia.
    cbn [sequential_forward]. unfold linear_forward at 1.
    rewrite decide_True by done. cbn [mbind option_bind].
    set (y := _ <$> seq 0 s1).
    destruct (IH s1 params (match rest with [] => output_activation | _ => activation end <$> y))
      as (z & Hz & Hlen).
    + lia.
    + subst y. by rewrite !length_fmap, length_seq.
    + exists z. split; [exact Hz |]. rewrite Hlen. destruct rest as [|r rest]; [done |].
      change (List.last (s1 :: r :: rest) s0) with (List.last (r :: rest) s0).
      by apply last_default.
Qed.

Lemma sequential_forward_wrong_input (s0 s1 : nat) (rest : list nat)
    (activation output_activation : Q → Q) (params : Params) (x : list Q) :
  length x ≠ s0 →
  sequential_forward (mlp (s0 :: s1 :: rest) activation output_activation) params x = None.
Proof.
  intros Hx. rewrite mlp_cons. cbn [sequential_forward].
  destruct params as [|w [|b params]]; try done.
  unfold linear_forward. by rewrite decide_False.
Qed.

Lemma last_q_sizes (obs_dim act_dim : nat) (hidden_sizes : list nat) :
  List.last (hidden_sizes ++ [act_dim]) obs_dim = act_dim.
Proof. apply last_last. Qed.

Lemma argmax_in_range (row : list Q) (a : Z) :
  argmax row = Some a → (0 ≤ a < Z.of_nat (length row))%Z.
Proof.
  unfold argmax. destruct row as [|x xs]; [done |]. intros [= <-].
  destruct (argmax_from_spec xs [x] x 0) as (m & Hm & _); try done.
  - intros v ->%list_elem_of_singleton. apply Qle_refl.
  - intros j v Hj. lia.
  - apply lookup_lt_Some in Hm. simpl in Hm. rewrite length_cons. lia.
Qed.

(** The network that [MLPQFunction] builds maps an observation of
    [obs_dim] entries to [act_dim] action values, whatever the hidden
    sizes and the parameter values; with a single action the [squeeze]
    turns the row into a scalar. An observation of any other length
    raises in the first linear layer. *)
Theorem q_network_output_shape (obs_dim act_dim : nat) (hidden_sizes : list nat)
    (activation : Q → Q) (params : Params) (obs : Obs) :
  length params = 2 * (length hidden_sizes + 1) →
  (length obs = obs_dim →
   ∃ q, sequential_forward (mlp (q_sizes obs_dim act_dim hidden_sizes) activation id)
          params obs = Some q ∧
        length q = act_dim ∧
        MLPQFunction_forward obs_dim act_dim hidden_sizes activation params obs
        = Some (if decide (act_dim = 1) then inl (default 0%Q (q !! 0)) else inr q)) ∧
  (length obs ≠ obs_dim →
   MLPQFunction_forward obs_dim act_dim hidden_sizes activation params obs = None).
Proof.
  intros Hp. split.
  - intros Hobs. unfold MLPQFunction_forward, q_sizes. cbn [app].
    destruct (sequential_forward_mlp obs_dim (hidden_sizes ++ [act_dim])
                activation id params obs) as (q & Hq & Hlen); [| done |].
    { rewrite length_app. simpl. lia. }
    rewrite last_q_sizes in Hlen. exists q. split; [done |]. split; [done |].
    rewrite Hq. cbn [mbind option_bind]. f_equal.
    destruct (decide (act_dim = 1)) as [-> | Hne].
    + by destruct q as [|v [|? ?]].
    + destruct q as [|v [|? ?]]; try done; simpl in Hlen; lia.
  - intros Hobs. unfold MLPQFunction_forward, q_sizes. cbn [app].
    destruct (hidden_sizes ++ [act_dim]) as [|s1 rest] eqn:Hs.
    { by destruct hidden_sizes. }
    by rewrite sequential_forward_wrong_input.
Qed.

(** With at least one action, [DQNQFunction.act] on an observation of
    [obs_dim] entries returns an action index in [[0, act_dim)]; with
    no action at all the [argmax] raises. *)
Theorem act_returns_valid_action (obs_dim act_dim : nat) (hidden_sizes : list nat)
    (activation : Q → Q) (params : Params) (obs : Obs) :
  length params = 2 * (length hidden_sizes + 1) →
  length obs = obs_dim →
  match DQNQFunction_act obs_dim act_dim hidden_sizes activation params obs with
  | Some a => (0 ≤ a < Z.of_nat act_dim)%Z
  | None => act_dim = 0
  end.
Proof.
  intros Hp Hobs. unfold DQNQFunction_act, MLPQFunction_forward, q_sizes. cbn [app].
  destruct (sequential_forward_mlp obs_dim (hidden_sizes ++ [act_dim])
              activation id params obs) as (q & Hq & Hlen); [| done |].
  { rewrite length_app. simpl. lia. }
  rewrite last_q_sizes in Hlen. rewrite Hq. cbn [mbind option_bind].
  destruct (squeeze_last q) as [v | row] eqn:Hsq.
  - destruct q as [|v' [|? ?]]; try done. simpl in Hlen. lia.
  - assert (row = q) as -> by (by destruct q as [|v' [|? ?]]; simplify_eq/=).
    destruct (argmax q) as [a|] eqn:Ha.
    + apply argmax_in_range in Ha. lia.
    + destruct q; [done | done].
Qed.

Lemma resets_snoc (width height : Z) (placed : list ((Z * Z) * (Z * Z)))
    (p : (Z * Z) * (Z * Z)) (self : FourRooms) :
  resets width height (placed ++ [p]) self
  = self' ← resets width height placed self; reset width height p self'.
Proof.
  revert self. induction placed as [|q placed IH]; intros self; simpl.
  - by destruct (reset width height p self).
  - destruct (reset width height q self); [apply IH | done].
Qed.

Lemma reset_spec (size : Z) (p : (Z * Z) * (Z * Z)) (self : FourRooms) :
  (3 ≤ size)%Z →
  match agent_default_pos self with
  | Some a => on_grid size size a = true
  | None => True
  end →
  let n := (episode_num self + 1)%Z in
  let goal := if decide ((n `mod` 1000)%Z = 500%Z)
              then (size - 2, size - 2)%Z else (size - 2, 1)%Z in
  reset size size p self
  = Some {| agent_default_pos := agent_default_pos self;
            goal_default_pos := Some goal;
            episode_num := n;
            agent_pos := Some (default p.1 (agent_default_pos self));
            goal_cell := Some goal |}.
Proof.
  intros Hsize Ha n goal. unfold reset, reset_head. fold n.
  assert (Hcond : bool_decide ((n `mod` 500)%Z = 0%Z)
                  && bool_decide (((n `div` 500) `mod` 2)%Z = 1%Z)
                  = bool_decide ((n `mod` 1000)%Z = 500%Z)).
  { apply eq_true_iff_eq. rewrite andb_true_iff, !bool_decide_eq_true.
    Z.to_euclidean_division_equations. lia. }
  rewrite Hcond. subst goal.
  destruct (decide ((n `mod` 1000)%Z = 500%Z)) as [Hm | Hm].
  - rewrite bool_decide_eq_true_2 by done. unfold gen_grid_place. simpl.
    assert (on_grid size size (size - 2, size - 2)%Z = true) as ->.
    { unfold on_grid. simpl. rewrite !bool_decide_eq_true_2 by lia. done. }
    destruct (agent_default_pos self) as [a|]; simpl; [by rewrite Ha | done].
  - rewrite bool_decide_eq_false_2 by done. unfold gen_grid_place. simpl.
    assert (on_grid size size (size - 2, 1)%Z = true) as ->.
    { unfold on_grid. simpl. rewrite !bool_decide_eq_true_2 by lia. done. }
    destruct (agent_default_pos self) as [a|]; simpl; [by rewrite Ha | done].
Qed.


(** ** Bounds of the exploration rate *)

(** With a floor in [[0, 1]] and a decay in [[0, 1]], the rate stays in
    [[exploration_end * exploration_decay, 1]] at every step: an
    undershoot of the floor is by the factor [exploration_decay] at
    most, and it lasts one step, the next rate being the floor. *)
Theorem exploration_rate_bounds (f d : Q) (n : nat) :
  (0 <= f)%Q → (f <= 1)%Q → (0 <= d)%Q → (d <= 1)%Q →
  (f * d <= exploration_rate_after f d n)%Q ∧
  (exploration_rate_after f d n <= 1)%Q ∧
  ((exploration_rate_after f d n < f)%Q → exploration_rate_after f d (S n) = f).
Proof.
  intros Hf0 Hf1 Hd0 Hd1.
  assert (Hb : (f * d <= exploration_rate_after f d n)%Q ∧
               (exploration_rate_after f d n <= 1)%Q).
  { induction n as [|n [IHl IHu]].
    - change (exploration_rate_after f d 0) with 1%Q. split; [nra | lra].
    - change (exploration_rate_after f d (S n))
        with (exploration_schedule f d (exploration_rate_after f d n)).
      unfold exploration_schedule.
      destruct (Qlt_le_dec f (exploration_rate_after f d n)) as [Hlt | Hle].
      + split; nra.
      + split; [nra | lra]. }
  destruct Hb as [Hl Hu]. split; [done |]. split; [done |].
  intros Hlt.
  change (exploration_rate_after f d (S n))
    with (exploration_schedule f d (exploration_rate_after f d n)).
  apply exploration_schedule_floor. lra.
Qed.

(** ** Updates without gradient steps *)

Section NoGradientSteps.
Context {gym : Env} {net : QNetwork} {optim : Optimizer} {np_random : NumpyRandom}.

(** With [grad_steps <= 0] the loop of [update] binds no loss, and the
    call raises where the loss is logged, before the Polyak block: no
    sample-and-update cycle returns, and with a positive
    [update_interval] every iteration at which an update is due
    raises. *)
Theorem update_raises_without_gradient_steps (cfg : Config) :
  (grad_steps cfg ≤ 0)%Z →
  (∀ batch st, update cfg batch (grad_steps cfg) st = None) ∧
  (∀ st, sample_and_update cfg st = None) ∧
  (∀ t st, (0 < update_interval cfg)%Z →
           update_due cfg t (replay_buffer st) = Some true →
           update_handling cfg t st = None).
Proof.
  intros Hg.
  assert (Hu : ∀ batch st, update cfg batch (grad_steps cfg) st = None).
  { intros batch st. unfold update.
    by replace (Z.to_nat (grad_steps cfg)) with 0 by lia. }
  assert (Hs : ∀ st, sample_and_update cfg st = None).
  { intros st. unfold sample_and_update.
    destruct (sample_batch _ _ _) as [[[[batch idxs] buf] g']|]; [| done].
    simpl. apply Hu. }
  split; [exact Hu |]. split; [exact Hs |].
  intros t st Hint Hdue. unfold update_handling. rewrite Hdue. simpl.
  destruct (Z.to_nat (update_interval cfg)) as [|n] eqn:Hn; [lia |].
  simpl. by rewrite Hs.
Qed.
End NoGradientSteps.

(** * More runs in the toy world *)

Module MoreRuns.
Import Toy.

(** Three steps of the toy run: three transitions stored, the cursor
    at 3 in a buffer of capacity 4. *)
Lemma one_store_per_step_witness :
  ∃ st, dqn_steps small_config 3 = Some st ∧
        length (stored (trace st)) = 3 ∧
        size (replay_buffer st) = 3 ∧ ptr (replay_buffer st) = 3.
Proof.
  destruct (dqn_steps small_config 3) as [st|] eqn:E;
    [| vm_compute in E; discriminate].
  destruct (one_store_per_step small_config 3 st E)
    as (b0 & _ & _ & Hlen & Hsize & Hptr).
  exists st. split; [reflexivity |]. split; [exact Hlen |].
  split; [exact Hsize | exact Hptr].
Defined.

(** After three steps the rate is the third rate of the schedule. *)
Lemma exploration_rate_follows_schedule_witness :
  ∃ st, dqn_steps small_config 3 = Some st ∧
        exploration_rate st = exploration_rate_after (3 # 8) (1 # 2) 3.
Proof.
  destruct (dqn_steps small_config 3) as [st|] eqn:E;
    [| vm_compute in E; discriminate].
  exists st. split; [reflexivity |].
  exact (exploration_rate_follows_schedule small_config 3 st E).
Defined.

(** After three steps in the corridor, with [max_ep_len = 2], the
    running episode has fewer than two steps. *)
Lemma episode_length_below_horizon_witness :
  ∃ st, dqn_steps small_config 3 = Some st ∧ (0 ≤ ep_len st < 2)%Z.
Proof.
  destruct (dqn_steps small_config 3) as [st|] eqn:E;
    [| vm_compute in E; discriminate].
  destruct (episode_length_below_horizon small_config 3 st E) as [[Hl _] Hm].
  exists st. split; [reflexivity |]. split; [exact Hl |].
  apply Hm. reflexivity.
Defined.

(** Three steps of the toy run make at most three cycles. *)
Lemma updates_never_outnumber_steps_witness :
  ∃ st, dqn_steps small_config 3 = Some st ∧
        count_events is_sample (trace st) ≤ 3 ∧
        count_events is_polyak (trace st) = count_events is_sample (trace st).
Proof.
  destruct (dqn_steps small_config 3) as [st|] eqn:E;
    [| vm_compute in E; discriminate].
  destruct (updates_never_outnumber_steps small_config 3 st E) as (Hs & Hp & _).
  exists st. split; [reflexivity |]. split; [exact Hs | exact Hp].
Defined.

(** The first step with [update_interval = 0]: one transition stored
    and nothing else. *)
Lemma no_update_with_nonpositive_interval_witness :
  ∃ st0 st1 x,
    dqn_start Treadmill.no_interval_config = Some st0 ∧
    loop_body Treadmill.no_interval_config 0 st0 = Some st1 ∧
    trace st1 = trace st0 ++ [Ev_store x].
Proof.
  destruct (dqn_start Treadmill.no_interval_config) as [st0|] eqn:E0;
    [| vm_compute in E0; discriminate].
  destruct (loop_body Treadmill.no_interval_config 0 st0) as [st1|] eqn:E1.
  2: { vm_compute in E0. injection E0 as <-. vm_compute in E1. discriminate. }
  destruct (no_update_with_nonpositive_interval Treadmill.no_interval_config 0 st0 st1)
    as [[x Hx] _]; [simpl; lia | exact E1 |].
  exists st0, st1, x. split; [reflexivity |]. split; [exact E1 | exact Hx].
Defined.

(** A batch of two from a fresh buffer of capacity 2. *)
Lemma sample_batch_raises_witness :
  ∃ b0, ReplayBuffer_init 1 2 = Some b0 ∧
        sample_batch b0 2 (0%nat : @Rng counting) = None.
Proof.
  destruct (ReplayBuffer_init 1 2) as [b0|] eqn:E;
    [| vm_compute in E; discriminate].
  exists b0. split; [reflexivity |].
  destruct (sample_batch_raises 1 2 2 (0%nat : @Rng counting) b0 E) as [Hr _];
    [lia | exact Hr].
Defined.

(** Online entry 0, target entry 1, [polyak = 1/2], three blocks: the
    target entry is at 1/8. *)
Lemma polyak_repeat_contracts_witness :
  let online := [ {| data := [0%Q]; requires_grad := true |} ] in
  let targ := [ {| data := [1%Q]; requires_grad := false |} ] in
  ∃ p' y, polyak_repeat (1 # 2) online targ 3 !! 0 = Some p' ∧
          data p' !! 0 = Some y ∧
          (y - 0 == decay_power (1 # 2) 3 * (1 - 0))%Q.
Proof.
  intros online targ.
  apply (polyak_repeat_contracts (1 # 2) online targ 3 0 0
           {| data := [0%Q]; requires_grad := true |}
           {| data := [1%Q]; requires_grad := false |} 0%Q 1%Q);
    reflexivity.
Defined.


(** Three test episodes in the corridor with [max_ep_len = 2]. *)
Lemma test_episodes_end_by_horizon_witness :
  ∃ test_env' logged,
    test_agent small_config 3 (q_net_new 0) 2 (0%nat : @EnvState corridor)
      = Returned (test_env', logged) ∧
    length logged = 3.
Proof.
  destruct (test_episodes_end_by_horizon small_config 3 (q_net_new 0)
              (0%nat : @EnvState corridor))
    as (e & logged & Hr & Hlen & _).
  - simpl. lia.
  - intros ob. discriminate.
  - exists e, logged. split; [exact Hr | exact Hlen].
Defined.

(** One test episode on the treadmill with [max_ep_len = -1]: still
    running after 100 steps. *)
Lemma test_agent_without_horizon_runs_on_witness :
  @test_agent Treadmill.treadmill bias_net Treadmill.no_horizon_config 1
    (q_net_new 0) 100 0 = Running.
Proof.
  apply (@test_agent_without_horizon_runs_on Treadmill.treadmill bias_net).
  - simpl. lia.
  - lia.
  - intros ob. discriminate.
  - intros s a. reflexivity.
Defined.

(** Step 3 of a run with 4 steps per epoch ends epoch 1 and logs 3
    interactions; with [save_freq = 1] the model is saved. *)
Lemma epoch_ends_on_multiples_witness :
  ∃ e, end_of_epoch small_config 1 3 = Some (Some e) ∧
       epoch e = 1%Z ∧ total_env_interacts e = 3%Z ∧ model_saved e = true.
Proof.
  destruct (epoch_ends_on_multiples small_config 1 3) as (r & Hr & _ & He);
    [simpl; lia | lia | simpl; lia |].
  vm_compute in Hr. injection Hr as <-.
  eexists. split; [reflexivity |]. destruct (He _ eq_refl) as (_ & _ & _ & _).
  split; [reflexivity |]. split; reflexivity.
Defined.

(** With [save_freq = 0] and 4 steps per epoch, steps 0 to 2 pass and
    step 3 raises. *)
Lemma zero_save_freq_raises_at_first_epoch_witness :
  end_of_epoch small_config 0 2 = Some None ∧
  end_of_epoch small_config 0 3 = None.
Proof.
  destruct (zero_save_freq_raises_at_first_epoch small_config 2) as (_ & H2 & _);
    [simpl; lia |].
  destruct (zero_save_freq_raises_at_first_epoch small_config 3) as (_ & _ & H3);
    [simpl; lia |].
  split; [apply H2; simpl; lia | apply H3; simpl; lia].
Defined.

(** A network of sizes 2, 3, 2 on an observation of two entries: two
    action values. *)
Lemma q_network_output_shape_witness :
  ∃ q, MLPQFunction_forward 2 2 [3] relu Treadmill.small_params [1; 2]%Q
         = Some (inr q) ∧ length q = 2.
Proof.
  destruct (q_network_output_shape 2 2 [3] relu Treadmill.small_params [1; 2]%Q)
    as [Hok _]; [reflexivity |].
  destruct (Hok eq_refl) as (q & _ & Hlen & Hq).
  exists q. split; [exact Hq | exact Hlen].
Defined.

(** The greedy action of that network is 0 or 1. *)
Lemma act_returns_valid_action_witness :
  ∃ a, DQNQFunction_act 2 2 [3] relu Treadmill.small_params [1; 2]%Q = Some a ∧
       (0 ≤ a < 2)%Z.
Proof.
  pose proof (act_returns_valid_action 2 2 [3] relu Treadmill.small_params [1; 2]%Q
                eq_refl eq_refl) as H.
  destruct (DQNQFunction_act 2 2 [3] relu Treadmill.small_params [1; 2]%Q) as [a|];
    [| discriminate H].
  exists a. split; [reflexivity | exact H].
Defined.

(** Floor 3/8, decay 1/2: the rate after two steps is between 3/16
    and 1. *)
Lemma exploration_rate_bounds_witness :
  ((3 # 8) * (1 # 2) <= exploration_rate_after (3 # 8) (1 # 2) 2)%Q ∧
  (exploration_rate_after (3 # 8) (1 # 2) 2 <= 1)%Q.
Proof.
  destruct (exploration_rate_bounds (3 # 8) (1 # 2) 2) as (Hl & Hu & _);
    try (vm_compute; discriminate).
  split; [exact Hl | exact Hu].
Defined.

(** With [grad_steps = 0] the first update that is due, at step 1 of
    the toy run, raises. *)
Lemma update_raises_without_gradient_steps_witness :
  ∃ st, dqn_steps Treadmill.no_gradient_config 1 = Some st ∧
        dqn_steps Treadmill.no_gradient_config 2 = None ∧
        sample_and_update Treadmill.no_gradient_config st = None.
Proof.
  destruct (dqn_steps Treadmill.no_gradient_config 1) as [st|] eqn:E;
    [| vm_compute in E; discriminate].
  exists st. split; [reflexivity |]. split; [vm_compute; reflexivity |].
  destruct (update_raises_without_gradient_steps Treadmill.no_gradient_config)
    as (_ & Hs & _); [simpl; lia |].
  apply Hs.
Defined.

(** The first store into a fresh buffer of capacity 2 writes slot 0. *)
Lemma store_needs_capacity_witness :
  ∃ b0 b1, ReplayBuffer_init 1 2 = Some b0 ∧
           store_transition b0 x1 = Some b1 ∧
           slot b1 0 = Some (row_of x1).
Proof.
  destruct (ReplayBuffer_init 1 2) as [b0|] eqn:E0;
    [| vm_compute in E0; discriminate].
  destruct (store_transition b0 x1) as [b1|] eqn:E1.
  2: { vm_compute in E0. injection E0 as <-. vm_compute in E1. discriminate. }
  destruct (store_needs_capacity 1 2 x1 eq_refl eq_refl) as [_ Hs].
  destruct (Hs b0 E0) as [_ Hw]. destruct (Hw b1 E1) as [Hslot _].
  exists b0, b1. split; [reflexivity |]. split; [exact E1 | exact Hslot].
Defined.

End MoreRuns.
